(** * k8s-equalizer: the rebalancing planner of [equalizer.py]

    A shallow embedding of the planner's core ([compute_targets],
    [_is_evictable], [_pod_sort_key], [plan_evictions], [execute_plan])
    and the properties its specification states about it.

    Conventions of the embedding:
    - Python [int] is [Z]; [len] is [Z.of_nat (length _)];
    - a [dict] keyed by strings is a [gmap string _];
    - a raised exception is the left summand of [Py.Result];
    - text written with [_print_warning] / [_print_error] and calls of the
      eviction endpoint are recorded, in order, as a list of [Event]s. *)

From Stdlib Require Import ZArith Lia.
From stdpp Require Import base option list sorting strings gmap fin_maps pretty.

(** ** The fragment of Python the planner uses *)

Module Py.

(** The exceptions the modelled statements can raise. *)
Inductive Exception : Type :=
  | ZeroDivisionError
  | KeyError (key : string)
  | IndexError.

Definition Result (A : Type) : Type := (Exception + A)%type.

Definition ret {A} (a : A) : Result A := inr a.
Definition raise {A} (e : Exception) : Result A := inl e.
Definition bind {A B} (m : Result A) (k : A → Result B) : Result B :=
  match m with
  | inl e => inl e
  | inr a => k a
  end.

Notation "'let*' x ':=' m 'in' k" := (bind m (λ x, k))
  (at level 10, x pattern, m at level 100, k at level 200, only parsing).

(** Left-to-right evaluation of [f] over a list, stopping at the first
    exception. *)
Fixpoint mapM {A B} (f : A → Result B) (l : list A) : Result (list B) :=
  match l with
  | [] => ret []
  | x :: l' =>
      let* y := f x in
      let* ys := mapM f l' in
      ret (y :: ys)
  end.

(** A [for] loop threading an accumulator. *)
Fixpoint foldM {A S} (f : S → A → Result S) (s : S) (l : list A) : Result S :=
  match l with
  | [] => ret s
  | x :: l' => let* s' := f s x in foldM f s' l'
  end.

(** [divmod a b]: floor division, the remainder has the divisor's sign. *)
Definition divmod (a b : Z) : Result (Z * Z) :=
  if (b =? 0)%Z then raise ZeroDivisionError else ret ((a / b)%Z, (a mod b)%Z).

(** [range(n)]. *)
Definition range (n : Z) : list nat := seq 0 (Z.to_nat n).

(** [len(l)]. *)
Definition len {A} (l : list A) : Z := Z.of_nat (length l).

(** [sum(l)] on integers. *)
Definition sum (l : list Z) : Z := foldl Z.add 0%Z l.

(** [d[k]]. *)
Definition getitem {V} (d : gmap string V) (k : string) : Result V :=
  match d !! k with
  | Some v => ret v
  | None => raise (KeyError k)
  end.

(** [d.get(k, dflt)]. *)
Definition get {V} (d : gmap string V) (k : string) (dflt : V) : V :=
  default dflt (d !! k).

(** [l[i]] for an index that is not negative. *)
Definition index {A} (l : list A) (i : nat) : Result A :=
  match l !! i with
  | Some x => ret x
  | None => raise IndexError
  end.

(** [{k: f(k) for k in keys}]: a later occurrence of a key overwrites an
    earlier one. *)
Definition dict_comp {V} (f : string → V) (keys : list string) : gmap string V :=
  foldl (λ d k, <[k := f k]> d) ∅ keys.

(** [d.values()], in some order. *)
Definition values {V} (d : gmap string V) : list V := (map_to_list d).*2.

(** *** [sorted]

    [sorted(l, key=key, reverse=reverse)] computes the key of every element
    once, sorts stably using only [<] on keys, and for [reverse=True]
    reverses the list before and after the stable sort, which keeps equal
    keys in their input order. The stable sort is modelled by insertion. *)
Section sorting.
Context {K B : Type} (lt : K → K → bool) (key : B → K).

Fixpoint insert_by (x : B) (l : list B) : list B :=
  match l with
  | [] => [x]
  | y :: l' =>
      if lt (key y) (key x) then y :: insert_by x l' else x :: y :: l'
  end.

Definition stable_sort (l : list B) : list B := foldr insert_by [] l.

Definition sort_with (reverse : bool) (l : list B) : list B :=
  if reverse then list.reverse (stable_sort (list.reverse l)) else stable_sort l.

(** [x] may stand before [y] in ascending order: the key of [y] is not
    below the key of [x]. *)
Definition not_after (x y : B) : Prop := lt (key y) (key x) = false.
End sorting.

Definition sorted {A K} (lt : K → K → bool)
    (l : list A) (key : A → Result K) (reverse : bool) : Result (list A) :=
  let* keys := mapM key l in
  ret ((sort_with lt fst reverse (zip keys l)).*2).

End Py.

Import Py.

(** ** Pods *)

(** [pod.metadata.owner_references[i]]. *)
Record OwnerReference : Type := { kind : string }.

(** [start_ts] is a Python float: a finite timestamp or an infinity. A finite
    timestamp is kept as the exact instant in microseconds since the epoch
    (the resolution of [datetime]); a naive [datetime] is read as UTC, as
    [_pod_sort_key] does. No NaN arises in [_pod_sort_key]. *)
Inductive Float : Type :=
  | NegInf
  | Finite (us : Z)
  | PosInf.

(** The fields of a pod object the planner reads; a field that can be [None]
    is an [option]. [status_start_time] is the instant of the [datetime]. *)
Record Pod : Type := {
  metadata_namespace : string;
  metadata_name : string;
  metadata_owner_references : option (list OwnerReference);
  metadata_annotations : option (gmap string string);
  spec_priority : option Z;
  status_phase : option string;
  status_start_time : option Z
}.

Definition fneg (x : Float) : Float :=
  match x with
  | NegInf => PosInf
  | Finite us => Finite (- us)
  | PosInf => NegInf
  end.

Definition float_ltb (x y : Float) : bool :=
  match x, y with
  | NegInf, NegInf => false
  | NegInf, _ => true
  | Finite _, NegInf => false
  | Finite a, Finite b => (a <? b)%Z
  | Finite _, PosInf => true
  | PosInf, _ => false
  end.

(** [<] on the tuples [(priority, -start_ts)]: the first components decide
    unless they are equal. *)
Definition key_ltb (a b : Z * Float) : bool :=
  if (a.1 =? b.1)%Z then float_ltb a.2 b.2 else (a.1 <? b.1)%Z.

Definition _is_managed_by_daemonset (pod : Pod) : bool :=
  existsb (λ owner, String.eqb (kind owner) "DaemonSet")
    (default [] (metadata_owner_references pod)).

(** Truth value of [annotations.get(k)]: present and not the empty string. *)
Definition truthy (v : option string) : bool :=
  match v with
  | None => false
  | Some s => negb (String.eqb s "")
  end.

Definition phase_in_pending_running (phase : option string) : bool :=
  match phase with
  | None => false
  | Some s => String.eqb s "Pending" || String.eqb s "Running"
  end.

Definition _is_evictable (pod : Pod) : bool :=
  let annotations := default ∅ (metadata_annotations pod) in
  if truthy (annotations !! "kubernetes.io/config.mirror") then false
  else if bool_decide (annotations !! "cluster-autoscaler.kubernetes.io/safe-to-evict"
                       = Some "false") then false
  else if _is_managed_by_daemonset pod then false
  else if negb (phase_in_pending_running (status_phase pod)) then false
  else true.

Definition _pod_sort_key (pod : Pod) : Z * Float :=
  let priority := default 0%Z (spec_priority pod) in
  let start_ts :=
    match status_start_time pod with
    | None => PosInf
    | Some t => Finite t
    end in
  (priority, fneg start_ts).

(** ** Targets *)

Definition compute_targets (nodes : list string)
    (pods_by_node : gmap string (list Pod)) : Result (gmap string Z) :=
  let counts := dict_comp (λ node, len (get pods_by_node node [])) nodes in
  let total := sum (values counts) in
  let* (per_node, extra) := divmod total (len nodes) in
  let* ranked_nodes := sorted Z.ltb nodes (λ name, getitem counts name) true in
  let targets := dict_comp (λ _, per_node) nodes in
  foldM (λ targets idx,
           let* node := index ranked_nodes idx in
           let* t := getitem targets node in
           ret (<[node := (t + 1)%Z]> targets))
        targets (range extra).

(** ** Plan construction *)

(** What the planner and the executor write, and the calls they make. *)
Inductive Event : Type :=
  (** "Node n is o pods over target but only a are safe to evict; s pod(s)
      will remain imbalanced." *)
  | ShortageWarning (node : string) (overload available shortage : Z)
  (** "Reached --max-evictions limit, stopping." *)
  | CapReachedWarning
  (** "Failed to evict ns/name: exc" *)
  | EvictionFailedError (namespace name : string) (exc : string)
  (** A call [create_namespaced_pod_eviction(name, namespace, body)], with
      the grace period of the body and whether the call returned. *)
  | EvictionCall (namespace name : string) (grace_period_seconds : option Z)
      (returned : bool).

(** The candidates of a node: its evictable pods in eviction order. *)
Definition candidates_of (pods : list Pod) : Result (list Pod) :=
  sorted key_ltb (filter (λ pod, _is_evictable pod = true) pods)
    (λ pod, ret (_pod_sort_key pod)) false.

(** A plan: pairs of a node and a pod of it, in execution order. *)
Abbreviation Plan := (list (string * Pod)).

(** The body of the [for node in nodes] loop: what it prints, and the new
    plan or the exception it raises. *)
Definition plan_node (pods_by_node : gmap string (list Pod))
    (targets : gmap string Z) (plan : Plan) (node : string)
    : list Event * Result Plan :=
  match getitem targets node with
  | inl e => ([], inl e)
  | inr target =>
      let overload := (len (get pods_by_node node []) - target)%Z in
      if (overload <=? 0)%Z then ([], ret plan)
      else
        match candidates_of (get pods_by_node node []) with
        | inl e => ([], inl e)
        | inr candidates =>
            let '(overload, out) :=
              if (len candidates <? overload)%Z then
                let shortage := (overload - len candidates)%Z in
                (len candidates,
                 [ShortageWarning node overload (len candidates) shortage])
              else (overload, []) in
            (out,
             let* chosen := mapM (λ idx, index candidates idx) (range overload) in
             ret (plan ++ ((λ pod, (node, pod)) <$> chosen)))
        end
  end.

(** The loop: everything printed, and the plan or the exception that ended
    the loop. *)
Fixpoint plan_loop (pods_by_node : gmap string (list Pod))
    (targets : gmap string Z) (plan : Plan) (nodes : list string)
    : list Event * Result Plan :=
  match nodes with
  | [] => ([], ret plan)
  | node :: rest =>
      match plan_node pods_by_node targets plan node with
      | (out, inl e) => (out, inl e)
      | (out, inr plan') =>
          let '(out', r) := plan_loop pods_by_node targets plan' rest in
          (out ++ out', r)
      end
  end.

Definition plan_evictions (nodes : list string)
    (pods_by_node : gmap string (list Pod)) (targets : gmap string Z)
    : list Event * Result Plan :=
  plan_loop pods_by_node targets [] nodes.

(** ** Plan execution *)

(** [create_eviction_body]: the eviction object names the pod and carries the
    grace period. *)
Record V1Eviction : Type := {
  eviction_name : string;
  eviction_namespace : string;
  delete_options_grace_period_seconds : option Z
}.

Definition create_eviction_body (pod : Pod) (grace_period : option Z) : V1Eviction :=
  {| eviction_name := metadata_name pod;
     eviction_namespace := metadata_namespace pod;
     delete_options_grace_period_seconds := grace_period |}.

(** The outcome of a run of the executor: the count it returns, the endpoint
    after the run and the events of the run in order. *)
Record Run (Sink : Type) : Type := {
  returned : Z;
  api : Sink;
  events : list Event
}.
Arguments returned {Sink} _.
Arguments api {Sink} _.
Arguments events {Sink} _.

Section executor.
(** The eviction endpoint [eviction_api]: an object with a state of its own
    whose call either returns or raises [ApiException], kept as its text.
    The parameter [client_module] of the source only names that exception
    class. *)
Context {Sink : Type}.
Variable create_namespaced_pod_eviction :
  Sink → string → string → V1Eviction → Sink * (string + unit).

Definition cap_reached (max_evictions : option Z) (performed : Z) : bool :=
  match max_evictions with
  | None => false
  | Some m => (m <=? performed)%Z
  end.

(** The [for node, pod in plan] loop from a given counter and endpoint. *)
Fixpoint execute_loop (plan : Plan) (dry_run : bool) (grace_period : option Z)
    (max_evictions : option Z) (performed : Z) (eviction_api : Sink) : Run Sink :=
  match plan with
  | [] => {| returned := performed; api := eviction_api; events := [] |}
  | (node, pod) :: rest =>
      if cap_reached max_evictions performed then
        {| returned := performed; api := eviction_api;
           events := [CapReachedWarning] |}
      else if dry_run then
        execute_loop rest dry_run grace_period max_evictions performed eviction_api
      else
        let body := create_eviction_body pod grace_period in
        let ns := metadata_namespace pod in
        let nm := metadata_name pod in
        match create_namespaced_pod_eviction eviction_api nm ns body with
        | (eviction_api', inr _) =>
            let r := execute_loop rest dry_run grace_period max_evictions
                       (performed + 1)%Z eviction_api' in
            {| returned := r.(returned); api := r.(api);
               events := EvictionCall ns nm grace_period true :: r.(events) |}
        | (eviction_api', inl exc) =>
            let r := execute_loop rest dry_run grace_period max_evictions
                       performed eviction_api' in
            {| returned := r.(returned); api := r.(api);
               events := EvictionCall ns nm grace_period false
                         :: EvictionFailedError ns nm exc :: r.(events) |}
        end
  end.

Definition execute_plan (plan : Plan) (eviction_api : Sink) (dry_run : bool)
    (grace_period : option Z) (max_evictions : option Z) : Run Sink :=
  match plan with
  | [] => {| returned := 0; api := eviction_api; events := [] |}
  | _ => execute_loop plan dry_run grace_period max_evictions 0 eviction_api
  end.
End executor.

(** ** Vocabulary of the statements *)

(** The current count of a node: [len(pods_by_node.get(node, ()))]. *)
Definition pod_count (pods_by_node : gmap string (list Pod)) (node : string) : Z :=
  len (get pods_by_node node []).

(** The total the targets distribute: the counts of the supplied nodes. *)
Definition total_count (nodes : list string)
    (pods_by_node : gmap string (list Pod)) : Z :=
  sum (pod_count pods_by_node <$> nodes).

(** The nodes ranked as [compute_targets] ranks them. *)
Definition ranked (nodes : list string)
    (pods_by_node : gmap string (list Pod)) : list string :=
  sort_with Z.ltb (pod_count pods_by_node) true nodes.

(** The nodes that receive a remainder unit: the first [extra] ranked ones. *)
Definition favoured (nodes : list string)
    (pods_by_node : gmap string (list Pod)) : list string :=
  take (Z.to_nat (total_count nodes pods_by_node mod len nodes))
       (ranked nodes pods_by_node).

(** The units a node has received after [j] rounds of the remainder loop
    over the ranking [rk]. *)
Definition bonus (j : nat) (rk : list string) (n : string) : Z :=
  if bool_decide (n ∈ take j rk) then 1%Z else 0%Z.

(** The priority a pod sorts by: [spec.priority], 0 when absent. *)
Definition pod_priority (pod : Pod) : Z := default 0%Z (spec_priority pod).

(** The markers of the evictability rules, in the words of the
    specification. *)
Definition annotations_of (pod : Pod) : gmap string string :=
  default ∅ (metadata_annotations pod).

Definition daemonset_owned (pod : Pod) : Prop :=
  ∃ owner, owner ∈ default [] (metadata_owner_references pod)
           ∧ kind owner = "DaemonSet".

Definition safe_to_evict_false (pod : Pod) : Prop :=
  annotations_of pod !! "cluster-autoscaler.kubernetes.io/safe-to-evict"
  = Some "false".

(** The config-mirror annotation is present, whatever its value. *)
Definition carries_mirror_annotation (pod : Pod) : Prop :=
  is_Some (annotations_of pod !! "kubernetes.io/config.mirror").

(** The config-mirror annotation is present with a value that is not the
    empty string. *)
Definition carries_nonempty_mirror_annotation (pod : Pod) : Prop :=
  ∃ v, annotations_of pod !! "kubernetes.io/config.mirror" = Some v ∧ v ≠ "".

Definition pending_or_running (pod : Pod) : Prop :=
  status_phase pod = Some "Pending" ∨ status_phase pod = Some "Running".

(** The candidates of a node: its evictable pods in eviction order. *)
Definition candidates (pods_by_node : gmap string (list Pod)) (node : string)
    : list Pod :=
  sort_with key_ltb _pod_sort_key false
    (filter (λ pod, _is_evictable pod = true) (get pods_by_node node [])).

(** The entries of a plan that evict from a given node. *)
Definition entries_for (node : string) (plan : Plan) : Plan :=
  filter (λ entry, entry.1 = node) plan.

(** What one round of the planning loop adds to the plan for a node of
    target [t], and what it prints. *)
Definition planned_for (pods_by_node : gmap string (list Pod))
    (targets : gmap string Z) (node : string) : Plan :=
  match targets !! node with
  | Some t =>
      let cands := candidates pods_by_node node in
      (λ pod, (node, pod))
        <$> take (Z.to_nat (Z.min (pod_count pods_by_node node - t) (len cands))) cands
  | None => []
  end.

Definition printed_for (pods_by_node : gmap string (list Pod))
    (targets : gmap string Z) (node : string) : list Event :=
  match targets !! node with
  | Some t =>
      let cands := candidates pods_by_node node in
      let overload := (pod_count pods_by_node node - t)%Z in
      if bool_decide (0 < overload ∧ len cands < overload)%Z
      then [ShortageWarning node overload (len cands) (overload - len cands)]
      else []
  | None => []
  end.

(** The pods the executor called the endpoint for, as (namespace, name), in
    call order. *)
Fixpoint attempted (events : list Event) : list (string * string) :=
  match events with
  | [] => []
  | EvictionCall ns nm _ _ :: rest => (ns, nm) :: attempted rest
  | _ :: rest => attempted rest
  end.

(** The number of calls that returned. *)
Fixpoint successes (events : list Event) : Z :=
  match events with
  | [] => 0
  | EvictionCall _ _ _ true :: rest => 1 + successes rest
  | _ :: rest => successes rest
  end.



(** ** Sample data *)

(** A running pod of the namespace "default" with no owner and no
    annotation. *)
Definition sample_pod (name : string) (priority start : option Z) : Pod :=
  {| metadata_namespace := "default";
     metadata_name := name;
     metadata_owner_references := None;
     metadata_annotations := None;
     spec_priority := priority;
     status_phase := Some "Running";
     status_start_time := start |}.

(** Nodes A, B, C with 5, 3 and 1 pods. *)
Definition sample_pods_by_node : gmap string (list Pod) :=
  <["A" := sample_pod "a1" None (Some 10%Z) :: sample_pod "a2" None (Some 50%Z)
           :: sample_pod "a3" (Some 2%Z) (Some 70%Z) :: sample_pod "a4" None (Some 30%Z)
           :: sample_pod "a5" None (Some 20%Z) :: []]>
  (<["B" := sample_pod "b1" None (Some 10%Z) :: sample_pod "b2" None (Some 20%Z)
            :: sample_pod "b3" None (Some 30%Z) :: []]>
  (<["C" := sample_pod "c1" None (Some 10%Z) :: []]> ∅)).


(** Two pods of the same priority, the first started, the second not. *)
Definition sample_started : Pod := sample_pod "started" None (Some 100%Z).
Definition sample_unstarted : Pod := sample_pod "unstarted" None None.

(** A running pod that carries the config-mirror annotation with the empty
    string as its value. *)
Definition empty_mirror_pod : Pod :=
  {| metadata_namespace := "kube-system";
     metadata_name := "static-web";
     metadata_owner_references := None;
     metadata_annotations := Some {[ "kubernetes.io/config.mirror" := "" ]};
     spec_priority := None;
     status_phase := Some "Running";
     status_start_time := Some 10%Z |}.

(** The targets of the sample: 3 pods on each of A, B, C. *)
Definition sample_targets : gmap string Z :=
  <["A" := 3%Z]> (<["B" := 3%Z]> (<["C" := 3%Z]> ∅)).

(** An endpoint that accepts every eviction, and one that counts its calls
    and rejects the second one. *)
Definition accepting_sink (s : unit) (name namespace : string) (body : V1Eviction)
    : unit * (string + unit) :=
  (s, inr tt).

Definition flaky_sink (calls : nat) (name namespace : string) (body : V1Eviction)
    : nat * (string + unit) :=
  (S calls, if Nat.eqb calls 1 then inl "(429) Too Many Requests" else inr tt).

(** The plan that evicts the five pods of node A in their stored order. *)
Definition sample_plan : Plan :=
  (λ pod, ("A", pod)) <$> get sample_pods_by_node "A" [].

(** ** Inventory *)

(** A node as [list_schedulable_nodes] reads it: [node.metadata.name] and
    [getattr(node.spec, "unschedulable", False)], which can be [None]. *)
Record Node : Type := {
  node_metadata_name : string;
  node_spec_unschedulable : option bool
}.

(** [raise SystemExit(message)]. *)
Inductive Exit : Type := SystemExit (message : string).

(** [not getattr(node.spec, "unschedulable", False)]. *)
Definition schedulable (node : Node) : bool :=
  negb (default false (node_spec_unschedulable node)).

(** [list_schedulable_nodes], from the items the API call returned.
    [sorted(filtered)] compares the names themselves. *)
Definition list_schedulable_nodes (nodes : list Node) : Exit + list string :=
  let filtered :=
    node_metadata_name <$> filter (λ node, schedulable node = true) nodes in
  match filtered with
  | [] => inl (SystemExit "No schedulable nodes match the provided filters.")
  | _ => inr (sort_with String.ltb id false filtered)
  end.

(** A pod as the API lists it: [pod.spec.node_name] and the fields the
    planner reads. *)
Record PodItem : Type := {
  spec_node_name : option string;
  pod_object : Pod
}.

(** [list_target_pods], from the items the API call returned: the pods whose
    node name is neither [None] nor empty. *)
Definition list_target_pods (pods : list PodItem) : list PodItem :=
  filter (λ pod, truthy (spec_node_name pod) = true) pods.

(** [group_pods_by_node]: [grouped[pod.spec.node_name].append(pod)] on a
    [defaultdict(list)]. The result is declared [Dict[str, List]]; its caller
    passes the pods of [list_target_pods], which all have a node name, and a
    pod without one has no key of that type. *)
Definition group_pods_by_node (pods : list PodItem) : gmap string (list Pod) :=
  foldl (λ grouped pod,
           match spec_node_name pod with
           | Some node => <[node := get grouped node [] ++ [pod_object pod]]> grouped
           | None => grouped
           end)
        ∅ pods.

(** The local [unknown] of [warn_on_unlisted_nodes]:
    [sorted(set(pods_by_node.keys()) - set(nodes))]. *)
Definition unlisted_nodes (pods_by_node : gmap string (list Pod))
    (nodes : list string) : list string :=
  sort_with String.ltb id false
    (filter (λ node, node ∉ nodes) (map_to_list pods_by_node).*1).

(** [warn_on_unlisted_nodes]: the texts passed to [_print_warning]. *)
Definition warn_on_unlisted_nodes (pods_by_node : gmap string (list Pod))
    (nodes : list string) : list string :=
  let unknown := unlisted_nodes pods_by_node nodes in
  match unknown with
  | [] => []
  | _ =>
      let joined := String.concat ", " unknown in
      ["Found pods scheduled on nodes outside the selected pool: "
       +:+ joined +:+ ". They will not be adjusted."]
  end.

(** ** The age of a pod *)


(** ** Vocabulary of the further statements *)

(** The pods of the listing that sit on a node, in listing order. *)
Definition pods_on (node : string) (pods : list PodItem) : list Pod :=
  pod_object <$> filter (λ pod, spec_node_name pod = Some node) pods.

(** The target [compute_targets] gives a node of a node set: the quotient,
    and one unit more for a favoured node. *)
Definition target_of (nodes : list string)
    (pods_by_node : gmap string (list Pod)) (n : string) : Z :=
  (total_count nodes pods_by_node / len nodes
   + (if bool_decide (n ∈ favoured nodes pods_by_node) then 1 else 0))%Z.

(** A listed pod is placed on a node of the pool. *)
Definition on_pool (nodes : list string) (pod : PodItem) : bool :=
  match spec_node_name pod with
  | Some node => bool_decide (node ∈ nodes)
  | None => false
  end.

(** Sort keys can be compared for equality. *)
Global Instance Float_eq_dec : EqDecision Float.
Proof. solve_decision. Defined.



(** A cluster of three nodes, B cordoned, and the listing of the sample
    pods with their nodes, one pod not yet placed. *)
Definition sample_nodes : list Node :=
  [{| node_metadata_name := "C"; node_spec_unschedulable := None |};
   {| node_metadata_name := "B"; node_spec_unschedulable := Some true |};
   {| node_metadata_name := "A"; node_spec_unschedulable := Some false |}].

Definition sample_listing : list PodItem :=
  ((λ pod, {| spec_node_name := Some "A"; pod_object := pod |})
     <$> get sample_pods_by_node "A" [])
  ++ [{| spec_node_name := None; pod_object := sample_unstarted |}]
  ++ ((λ pod, {| spec_node_name := Some "B"; pod_object := pod |})
        <$> get sample_pods_by_node "B" [])
  ++ ((λ pod, {| spec_node_name := Some "C"; pod_object := pod |})
        <$> get sample_pods_by_node "C" []).

(** * Properties *)

(** ** Facts about the Python fragment *)

Module PyFacts.

Lemma bind_ret {A B} (a : A) (k : A → Result B) : bind (ret a) k = k a.
Proof. reflexivity. Qed.

Lemma bind_inr {A B} (m : Result A) (k : A → Result B) (b : B) :
  bind m k = inr b → ∃ a, m = inr a ∧ k a = inr b.
Proof. destruct m as [e|a]; simpl; [discriminate | eauto]. Qed.

Lemma mapM_total {A B} (f : A → Result B) (g : A → B) (l : list A) :
  (∀ x, x ∈ l → f x = ret (g x)) → mapM f l = ret (g <$> l).
Proof.
  induction l as [|x l IH]; intros Hf; simpl; [done|].
  rewrite (Hf x) by left. simpl.
  rewrite IH by (intros y Hy; apply Hf; by right). done.
Qed.

Lemma foldM_app {A S} (f : S → A → Result S) (s : S) (l1 l2 : list A) :
  foldM f s (l1 ++ l2) = bind (foldM f s l1) (λ s', foldM f s' l2).
Proof.
  revert s. induction l1 as [|x l1 IH]; intros s; simpl; [done|].
  destruct (f s x) as [e|s']; simpl; [done|]. apply IH.
Qed.

Lemma mapM_index_range {A} (l : list A) (n : nat) :
  n ≤ length l → mapM (λ idx, index l idx) (seq 0 n) = ret (take n l).
Proof.
  intros Hn.
  assert (Hgen : ∀ k m, m + k ≤ length l →
            mapM (λ idx, index l idx) (seq m k) = ret (take k (drop m l))).
  { clear n Hn. induction k as [|k IH]; intros m Hm; simpl; [done|].
    unfold index at 1.
    destruct (lookup_lt_is_Some_2 l m ltac:(lia)) as [x Hx].
    rewrite Hx. simpl. rewrite IH by lia. simpl.
    rewrite (drop_S l x m Hx). done. }
  rewrite (Hgen n 0) by lia. by rewrite drop_0.
Qed.

Lemma sum_foldr (l : list Z) : sum l = foldr Z.add 0%Z l.
Proof.
  unfold sum.
  assert (H : ∀ a, foldl Z.add a l = (a + foldr Z.add 0 l)%Z).
  { induction l as [|x l IH]; intros a; simpl; [lia|]. rewrite IH. lia. }
  rewrite H. lia.
Qed.

Lemma sum_cons (x : Z) (l : list Z) : sum (x :: l) = (x + sum l)%Z.
Proof. by rewrite !sum_foldr. Qed.

Lemma sum_app (l1 l2 : list Z) : sum (l1 ++ l2) = (sum l1 + sum l2)%Z.
Proof.
  induction l1 as [|x l1 IH]; simpl.
  - rewrite (sum_foldr []). simpl. lia.
  - rewrite !sum_cons, IH. lia.
Qed.

Lemma sum_perm (l1 l2 : list Z) : l1 ≡ₚ l2 → sum l1 = sum l2.
Proof.
  induction 1 as [|x l1 l2 _ IH|x y l|l1 l2 l3 _ IH1 _ IH2].
  - done.
  - by rewrite !sum_cons, IH.
  - rewrite !sum_cons. lia.
  - by rewrite IH1.
Qed.

Lemma dict_comp_snoc {V} (f : string → V) (keys : list string) (k : string) :
  dict_comp f (keys ++ [k]) = <[k := f k]> (dict_comp f keys).
Proof. unfold dict_comp. by rewrite foldl_app. Qed.

Lemma dict_comp_lookup {V} (f : string → V) (keys : list string) (k : string) :
  dict_comp f keys !! k = if decide (k ∈ keys) then Some (f k) else None.
Proof.
  induction keys as [|k' keys IH] using rev_ind.
  - unfold dict_comp. simpl. rewrite lookup_empty.
    destruct (decide (k ∈ [])) as [Hin|]; [by apply elem_of_nil in Hin | done].
  - rewrite dict_comp_snoc.
    destruct (decide (k' = k)) as [->|Hne].
    + rewrite lookup_insert_eq.
      destruct (decide (k ∈ keys ++ [k])) as [|Hn]; [done|].
      exfalso. apply Hn. set_solver.
    + rewrite lookup_insert_ne by done. rewrite IH.
      destruct (decide (k ∈ keys)) as [Hin|Hin],
               (decide (k ∈ keys ++ [k'])) as [Hin'|Hin']; [done| |  |done].
      * exfalso. apply Hin'. apply elem_of_app. by left.
      * exfalso. apply elem_of_app in Hin' as [?|Hk]; [done|].
        apply list_elem_of_singleton in Hk. congruence.
Qed.

Lemma dict_comp_list_to_map {V} (f : string → V) (keys : list string) :
  dict_comp f keys = list_to_map ((λ k, (k, f k)) <$> keys).
Proof.
  apply map_eq. intros k. rewrite dict_comp_lookup.
  destruct (decide (k ∈ keys)) as [Hin|Hin].
  - symmetry. apply elem_of_list_to_map_1'.
    + intros y Hy. apply list_elem_of_fmap in Hy as (k' & [= -> ->] & _). done.
    + apply list_elem_of_fmap. eauto.
  - symmetry. apply not_elem_of_list_to_map_1.
    rewrite <- list_fmap_compose. simpl. by rewrite list_fmap_id.
Qed.

(** On distinct keys, the values of a comprehension are the values computed
    for the keys. *)
Lemma values_dict_comp {V} (f : string → V) (keys : list string) :
  NoDup keys → values (dict_comp f keys) ≡ₚ f <$> keys.
Proof.
  intros Hnd. unfold values. rewrite dict_comp_list_to_map.
  rewrite map_to_list_to_map.
  - rewrite <- list_fmap_compose. done.
  - rewrite <- list_fmap_compose. simpl. by rewrite list_fmap_id.
Qed.

End PyFacts.

(** ** Facts about [sorted] *)

Module SortFacts.

Section insertion.
Context {K B : Type} (lt : K → K → bool) (key : B → K).

Lemma insert_by_perm x l : insert_by lt key x l ≡ₚ x :: l.
Proof.
  induction l as [|y l IH]; simpl; [done|].
  destruct (lt (key y) (key x)); [|done].
  rewrite IH. apply Permutation_swap.
Qed.

Lemma stable_sort_perm l : stable_sort lt key l ≡ₚ l.
Proof.
  induction l as [|x l IH]; simpl; [done|].
  rewrite insert_by_perm. by rewrite IH.
Qed.

Lemma sort_with_perm r l : sort_with lt key r l ≡ₚ l.
Proof.
  destruct r; simpl.
  - by rewrite reverse_Permutation, stable_sort_perm, reverse_Permutation.
  - apply stable_sort_perm.
Qed.

(** Stability: elements whose keys are pairwise not below one another
    come out in the order they came in. *)
Lemma insert_by_filter (P : B → Prop) `{!∀ x, Decision (P x)} x l :
  (∀ a b, P a → P b → lt (key a) (key b) = false) →
  filter P (insert_by lt key x l) = filter P (x :: l).
Proof.
  intros Heq. induction l as [|y l IH]; simpl; [done|].
  destruct (lt (key y) (key x)) eqn:Hlt; [|done].
  rewrite !filter_cons. rewrite filter_cons in IH.
  destruct (decide (P y)) as [Hy|Hy], (decide (P x)) as [Hx|Hx];
    rewrite ?IH; try done.
  rewrite (Heq y x Hy Hx) in Hlt. discriminate.
Qed.

Lemma stable_sort_filter (P : B → Prop) `{!∀ x, Decision (P x)} l :
  (∀ a b, P a → P b → lt (key a) (key b) = false) →
  filter P (stable_sort lt key l) = filter P l.
Proof.
  intros Heq. induction l as [|x l IH]; simpl; [done|].
  rewrite insert_by_filter by done.
  rewrite !filter_cons, IH. done.
Qed.

Lemma sort_with_filter (P : B → Prop) `{!∀ x, Decision (P x)} r l :
  (∀ a b, P a → P b → lt (key a) (key b) = false) →
  filter P (sort_with lt key r l) = filter P l.
Proof.
  intros Heq. destruct r; simpl.
  - rewrite filter_reverse, stable_sort_filter by done.
    by rewrite filter_reverse, reverse_involutive.
  - by apply stable_sort_filter.
Qed.

(** Sortedness needs [lt] to be a strict weak order on keys. *)
Hypothesis lt_asym : ∀ a b, lt a b = true → lt b a = false.
Hypothesis lt_negtrans :
  ∀ a b c, lt b a = false → lt c b = false → lt c a = false.

Lemma insert_by_sorted x l :
  StronglySorted (not_after lt key) l → StronglySorted (not_after lt key) (insert_by lt key x l).
Proof.
  induction l as [|y l IH]; intros Hs; simpl.
  - repeat constructor.
  - apply StronglySorted_cons in Hs as [Hy Hl].
    destruct (lt (key y) (key x)) eqn:Hlt.
    + apply StronglySorted_cons. split; [|by apply IH].
      rewrite insert_by_perm. constructor; [|done].
      unfold not_after. by apply lt_asym.
    + apply StronglySorted_cons. split.
      * constructor; [done|].
        eapply Forall_impl; [exact Hy|]. intros z Hz. unfold not_after in *.
        by apply (lt_negtrans _ (key y)).
      * by apply StronglySorted_cons.
Qed.

Lemma stable_sort_sorted l : StronglySorted (not_after lt key) (stable_sort lt key l).
Proof.
  induction l as [|x l IH]; simpl; [constructor|].
  by apply insert_by_sorted.
Qed.

Lemma reverse_sorted (R : relation B) l :
  StronglySorted R l → StronglySorted (flip R) (reverse l).
Proof.
  induction l as [|x l IH]; intros Hs; [constructor|].
  apply StronglySorted_cons in Hs as [Hx Hl].
  rewrite reverse_cons. apply StronglySorted_app. split_and!.
  - intros a b Ha Hb. apply list_elem_of_singleton in Hb as ->.
    rewrite elem_of_reverse in Ha. unfold flip.
    by apply (proj1 (Forall_forall _ _) Hx).
  - by apply IH.
  - repeat constructor.
Qed.

(** [reverse=False]: ascending; [reverse=True]: descending. *)
Lemma sort_with_ascending l :
  StronglySorted (not_after lt key) (sort_with lt key false l).
Proof. apply stable_sort_sorted. Qed.

Lemma sort_with_descending l :
  StronglySorted (flip (not_after lt key)) (sort_with lt key true l).
Proof. simpl. apply reverse_sorted, stable_sort_sorted. Qed.
End insertion.

(** Sorting decorated elements by the decoration is sorting by the key. *)
Lemma insert_by_fmap {K B C} (lt : K → K → bool) (key : B → K) (key' : C → K)
    (h : B → C) x l :
  (∀ y, key' (h y) = key y) →
  insert_by lt key' (h x) (h <$> l) = h <$> insert_by lt key x l.
Proof.
  intros Hk. induction l as [|y l IH]; csimpl; [done|].
  rewrite !Hk. destruct (lt (key y) (key x)); csimpl; [by rewrite IH | done].
Qed.

Lemma stable_sort_fmap {K B C} (lt : K → K → bool) (key : B → K) (key' : C → K)
    (h : B → C) l :
  (∀ y, key' (h y) = key y) →
  stable_sort lt key' (h <$> l) = h <$> stable_sort lt key l.
Proof.
  intros Hk. induction l as [|x l IH]; csimpl; [done|].
  rewrite IH. by apply insert_by_fmap.
Qed.

Lemma sort_with_fmap {K B C} (lt : K → K → bool) (key : B → K) (key' : C → K)
    (h : B → C) r l :
  (∀ y, key' (h y) = key y) →
  sort_with lt key' r (h <$> l) = h <$> sort_with lt key r l.
Proof.
  intros Hk. destruct r; simpl.
  - rewrite <- fmap_reverse, (stable_sort_fmap lt key key') by done.
    by rewrite fmap_reverse.
  - by apply stable_sort_fmap.
Qed.

(** With a key function that raises on no element, [sorted] is the stable
    sort by that key. *)
Lemma sorted_total {A K} (lt : K → K → bool) (l : list A)
    (key : A → Result K) (f : A → K) (r : bool) :
  (∀ x, x ∈ l → key x = ret (f x)) →
  sorted lt l key r = ret (sort_with lt f r l).
Proof.
  intros Hk. unfold sorted. rewrite (PyFacts.mapM_total key f) by done.
  simpl. f_equal.
  assert (Hz : zip (f <$> l) l = (λ x, (f x, x)) <$> l).
  { clear Hk. induction l as [|x l IH]; csimpl; [done|]. by rewrite IH. }
  rewrite Hz, (sort_with_fmap lt f fst) by done.
  rewrite <- list_fmap_compose. apply list_fmap_id.
Qed.

End SortFacts.

(** ** [compute_targets] *)

Module TargetFacts.

Lemma Z_ltb_asym (a b : Z) : (a <? b)%Z = true → (b <? a)%Z = false.
Proof. rewrite Z.ltb_lt, Z.ltb_ge. lia. Qed.

Lemma Z_ltb_negtrans (a b c : Z) :
  (b <? a)%Z = false → (c <? b)%Z = false → (c <? a)%Z = false.
Proof. rewrite !Z.ltb_ge. lia. Qed.

Lemma ranked_perm nodes pbn : ranked nodes pbn ≡ₚ nodes.
Proof. apply SortFacts.sort_with_perm. Qed.

Lemma ranked_NoDup nodes pbn : NoDup nodes → NoDup (ranked nodes pbn).
Proof. intros H. by rewrite ranked_perm. Qed.

Lemma ranked_length nodes pbn : length (ranked nodes pbn) = length nodes.
Proof. by rewrite ranked_perm. Qed.

Lemma elem_of_ranked nodes pbn n : n ∈ ranked nodes pbn ↔ n ∈ nodes.
Proof. by rewrite ranked_perm. Qed.

Lemma pod_count_nonneg pbn n : (0 ≤ pod_count pbn n)%Z.
Proof. unfold pod_count, len. lia. Qed.

Lemma total_count_nonneg nodes pbn : (0 ≤ total_count nodes pbn)%Z.
Proof.
  unfold total_count. induction nodes as [|n nodes IH]; csimpl.
  - by rewrite PyFacts.sum_foldr.
  - rewrite PyFacts.sum_cons. pose proof (pod_count_nonneg pbn n). lia.
Qed.

(** The remainder loop: after [j] rounds the first [j] ranked nodes have
    one unit more than [per_node]. *)
Lemma remainder_loop (nodes rk : list string) (per_node : Z) (j : nat) :
  NoDup rk → (∀ n, n ∈ rk → n ∈ nodes) → j ≤ length rk →
  foldM (λ targets idx,
           let* node := index rk idx in
           let* t := getitem targets node in
           ret (<[node := (t + 1)%Z]> targets))
        (dict_comp (λ _, per_node) nodes) (seq 0 j)
  = ret (dict_comp (λ n, (per_node + bonus j rk n)%Z) nodes).
Proof.
  intros Hnd Hsub. induction j as [|j IH]; intros Hj.
  - simpl. f_equal. rewrite !PyFacts.dict_comp_list_to_map. f_equal.
    apply list_fmap_ext. intros _ n _. unfold bonus. simpl.
    f_equal. lia.
  - rewrite seq_S, PyFacts.foldM_app, IH by lia. simpl.
    destruct (lookup_lt_is_Some_2 rk j ltac:(lia)) as [n Hn].
    unfold index. rewrite Hn. simpl.
    assert (Hnot : n ∉ take j rk).
    { intros Hin. apply list_elem_of_lookup in Hin as [i Hi].
      pose proof (lookup_lt_Some _ _ _ Hi) as Hlen.
      rewrite length_take in Hlen.
      rewrite lookup_take_lt in Hi by lia.
      pose proof (NoDup_lookup _ _ _ _ Hnd Hi Hn). lia. }
    unfold getitem. rewrite PyFacts.dict_comp_lookup.
    rewrite decide_True by (apply Hsub; eapply list_elem_of_lookup_2; eauto).
    simpl. f_equal. apply map_eq. intros k.
    rewrite PyFacts.dict_comp_lookup.
    destruct (decide (n = k)) as [->|Hne].
    + rewrite lookup_insert_eq.
      rewrite decide_True by (apply Hsub; eapply list_elem_of_lookup_2; eauto).
      f_equal. unfold bonus.
      rewrite bool_decide_eq_false_2 by done.
      rewrite bool_decide_eq_true_2; [lia|].
      rewrite (take_S_r _ _ _ Hn). set_solver.
    + rewrite lookup_insert_ne by done. rewrite PyFacts.dict_comp_lookup.
      destruct (decide (k ∈ nodes)); [|done]. f_equal. unfold bonus.
      rewrite (take_S_r _ _ _ Hn).
      rewrite (bool_decide_ext (k ∈ take j rk ++ [n]) (k ∈ take j rk)); [done|].
      rewrite elem_of_app, list_elem_of_singleton. intuition congruence.
Qed.

(** On a non-empty list of distinct nodes [compute_targets] returns, and
    what it returns is [per_node] for every node plus one unit for the
    favoured ones. *)
Lemma compute_targets_eq (nodes : list string) (pbn : gmap string (list Pod)) :
  nodes ≠ [] → NoDup nodes →
  compute_targets nodes pbn =
    ret (dict_comp (λ n, (total_count nodes pbn / len nodes
                          + (if bool_decide (n ∈ favoured nodes pbn)
                             then 1 else 0))%Z) nodes).
Proof.
  intros Hne Hnd. unfold compute_targets.
  assert (Htot : sum (values (dict_comp (λ node, len (get pbn node [])) nodes))
                 = total_count nodes pbn).
  { unfold total_count. apply PyFacts.sum_perm.
    by apply (PyFacts.values_dict_comp (pod_count pbn)). }
  rewrite Htot. unfold divmod.
  assert (Hlen : (0 < len nodes)%Z).
  { unfold len. destruct nodes; [done|]. simpl. lia. }
  destruct (Z.eqb_spec (len nodes) 0) as [Hz|_]; [lia|]. simpl.
  rewrite (SortFacts.sorted_total _ _ _ (pod_count pbn)).
  2:{ intros n Hn. unfold getitem. rewrite PyFacts.dict_comp_lookup.
      by rewrite decide_True. }
  simpl. unfold range.
  fold (ranked nodes pbn).
  rewrite remainder_loop.
  - done.
  - by apply ranked_NoDup.
  - intros n Hn. by apply (proj1 (elem_of_ranked nodes pbn n)).
  - pose proof (ranked_length nodes pbn) as Hr.
    unfold ranked, sort_with in Hr. rewrite Hr.
    pose proof (Z.mod_pos_bound (total_count nodes pbn) (len nodes) Hlen).
    unfold len in *. lia.
Qed.

(** The favoured nodes are [extra] many, and each node is counted once. *)
Lemma sum_bonus (rk : list string) (j : nat) :
  NoDup rk → j ≤ length rk →
  sum (bonus j rk <$> rk) = Z.of_nat j.
Proof.
  intros Hnd Hj.
  rewrite <- (take_drop j rk) at 2.
  rewrite fmap_app, PyFacts.sum_app.
  assert (H1 : bonus j rk <$> take j rk = (λ _, 1%Z) <$> take j rk).
  { apply list_fmap_ext. intros i n Hn. unfold bonus.
    rewrite bool_decide_eq_true_2; [done|]. by eapply list_elem_of_lookup_2. }
  assert (H0 : bonus j rk <$> drop j rk = (λ _, 0%Z) <$> drop j rk).
  { apply list_fmap_ext. intros i n Hn. unfold bonus.
    rewrite bool_decide_eq_false_2; [done|].
    rewrite <- (take_drop j rk) in Hnd.
    apply NoDup_app in Hnd as (_ & Hdis & _).
    intros Hin. apply (Hdis n Hin). by eapply list_elem_of_lookup_2. }
  rewrite H1, H0.
  assert (Hc : ∀ (c : Z) (l : list string),
            sum ((λ _, c) <$> l) = (c * Z.of_nat (length l))%Z).
  { intros c l. induction l as [|x l IH]; csimpl.
    - rewrite PyFacts.sum_foldr. simpl. lia.
    - rewrite PyFacts.sum_cons, IH. lia. }
  rewrite !Hc, length_take. lia.
Qed.

Lemma sum_plus_const (c : Z) (f : string → Z) (l : list string) :
  sum ((λ n, (c + f n)%Z) <$> l) = (c * len l + sum (f <$> l))%Z.
Proof.
  unfold len. induction l as [|x l IH]; csimpl.
  - rewrite !PyFacts.sum_foldr. simpl. lia.
  - rewrite !PyFacts.sum_cons, IH. lia.
Qed.

End TargetFacts.

Module Targets.
Import TargetFacts.

(** C9. Supplied with no node, [compute_targets] fails: the division of the
    total by the number of nodes raises [ZeroDivisionError], for every
    mapping of pods. *)
Theorem compute_targets_no_nodes (pods_by_node : gmap string (list Pod)) :
  compute_targets [] pods_by_node = inl ZeroDivisionError.
Proof. reflexivity. Qed.

(** C1. For a non-empty sequence of node names (a node set: the names are
    distinct) and any mapping of nodes to their pods, a node absent from the
    mapping counting as 0, [compute_targets] returns a mapping that is
    defined on the supplied nodes, holds no negative target, sums to the
    total count of the supplied nodes, and in which two targets differ by at
    most 1. *)
Theorem compute_targets_balanced
    (nodes : list string) (pods_by_node : gmap string (list Pod)) :
  nodes ≠ [] → NoDup nodes →
  ∃ targets,
    compute_targets nodes pods_by_node = inr targets
    ∧ (∀ n, n ∈ nodes ↔ is_Some (targets !! n))
    ∧ (∀ n t, targets !! n = Some t → (0 ≤ t)%Z)
    ∧ sum (values targets) = total_count nodes pods_by_node
    ∧ (∀ a b ta tb,
         targets !! a = Some ta → targets !! b = Some tb → (ta - tb ≤ 1)%Z).
Proof.
  intros Hne Hnd. eexists. split; [by apply compute_targets_eq|].
  assert (Hlen : (0 < len nodes)%Z).
  { unfold len. destruct nodes; [done|]. simpl. lia. }
  pose proof (total_count_nonneg nodes pods_by_node) as Htot.
  assert (Hq : (0 ≤ total_count nodes pods_by_node / len nodes)%Z)
    by (apply Z.div_pos; lia).
  split_and!.
  - intros n. rewrite PyFacts.dict_comp_lookup.
    destruct (decide (n ∈ nodes)); [by eauto|].
    split; [done|]. by intros [? ?].
  - intros n t. rewrite PyFacts.dict_comp_lookup.
    destruct (decide (n ∈ nodes)); [|done]. intros [= <-].
    destruct (bool_decide _); lia.
  - rewrite (PyFacts.sum_perm _ _ (PyFacts.values_dict_comp _ _ Hnd)).
    rewrite (sum_plus_const _ (λ n, if bool_decide (n ∈ favoured nodes pods_by_node)
                                    then 1%Z else 0%Z)).
    change (λ n, if bool_decide (n ∈ favoured nodes pods_by_node) then 1%Z else 0%Z)
      with (bonus (Z.to_nat (total_count nodes pods_by_node mod len nodes))
              (ranked nodes pods_by_node)).
    rewrite <- (PyFacts.sum_perm _ _
                  (fmap_Permutation _ _ _ (ranked_perm nodes pods_by_node))).
    pose proof (Z.mod_pos_bound (total_count nodes pods_by_node) (len nodes) Hlen).
    rewrite sum_bonus.
    + rewrite Z2Nat.id by lia.
      pose proof (Z.div_mod (total_count nodes pods_by_node) (len nodes)). lia.
    + by apply ranked_NoDup.
    + rewrite ranked_length. unfold len in *. lia.
  - intros a b ta tb. rewrite !PyFacts.dict_comp_lookup.
    destruct (decide (a ∈ nodes)); [|done].
    destruct (decide (b ∈ nodes)); [|done].
    intros [= <-] [= <-]. do 2 destruct (bool_decide _); lia.
Qed.

Lemma compute_targets_balanced_witness :
  ∃ targets,
    compute_targets ["A"; "B"; "C"] sample_pods_by_node = inr targets
    ∧ (∀ n, n ∈ ["A"; "B"; "C"] ↔ is_Some (targets !! n))
    ∧ (∀ n t, targets !! n = Some t → (0 ≤ t)%Z)
    ∧ sum (values targets) = total_count ["A"; "B"; "C"] sample_pods_by_node
    ∧ (∀ a b ta tb,
         targets !! a = Some ta → targets !! b = Some tb → (ta - tb ≤ 1)%Z).
Proof.
  apply compute_targets_balanced.
  - discriminate.
  - apply (bool_decide_unpack _). vm_compute. reflexivity.
Defined.

(** The names must be distinct: a name listed twice is counted once in the
    total but twice in the number of nodes, and can receive two units. Here
    node A holds 5 pods and gets the target 3. *)
Example compute_targets_repeated_name :
  compute_targets ["A"; "A"] sample_pods_by_node = inr {[ "A" := 3%Z ]}.
Proof. reflexivity. Qed.

Lemma StronglySorted_mono {A} (R S : relation A) (l : list A) :
  (∀ a b, R a b → S a b) → StronglySorted R l → StronglySorted S l.
Proof.
  intros HRS. induction 1 as [|x l _ IH Hx]; constructor; [done|].
  eapply Forall_impl; [exact Hx|]. auto.
Qed.

Lemma ranked_descending nodes pbn :
  StronglySorted (λ a b, (pod_count pbn b ≤ pod_count pbn a)%Z) (ranked nodes pbn).
Proof.
  eapply StronglySorted_mono;
    [|apply (SortFacts.sort_with_descending Z.ltb (pod_count pbn)
               Z_ltb_asym Z_ltb_negtrans)].
  intros a b. unfold flip, not_after. rewrite Z.ltb_ge. lia.
Qed.




End Targets.

(** ** Evictability and eviction order *)

Module Selector.

Lemma is_managed_by_daemonset_spec (pod : Pod) :
  _is_managed_by_daemonset pod = true ↔ daemonset_owned pod.
Proof.
  unfold _is_managed_by_daemonset, daemonset_owned.
  rewrite existsb_exists. split.
  - intros (o & Hin & Heq). exists o. split; [by apply list_elem_of_In|].
    by apply String.eqb_eq.
  - intros (o & Hin & Heq). exists o. split; [by apply list_elem_of_In|].
    by apply String.eqb_eq.
Qed.

Lemma truthy_spec (v : option string) :
  truthy v = true ↔ ∃ s, v = Some s ∧ s ≠ "".
Proof.
  destruct v as [s|]; simpl.
  - rewrite negb_true_iff, String.eqb_neq. split.
    + intros Hs. by exists s.
    + by intros (s' & [= <-] & Hs).
  - split; [done|]. by intros (s & ? & _).
Qed.

Lemma phase_in_pending_running_spec (pod : Pod) :
  phase_in_pending_running (status_phase pod) = true ↔ pending_or_running pod.
Proof.
  unfold pending_or_running. destruct (status_phase pod) as [s|]; simpl.
  - rewrite orb_true_iff, !String.eqb_eq.
    split; (intros [H|H]; [left|right]; congruence).
  - split; [done|]. by intros [?|?].
Qed.

(** C3, as the code has it. [_is_evictable] returns false exactly when the
    pod is DaemonSet-owned, or annotated safe-to-evict=false, or carries the
    config-mirror annotation with a non-empty value, or has a phase other
    than Pending or Running; for every Pending or Running pod without those
    markers it returns true. *)
Theorem is_evictable_spec (pod : Pod) :
  (_is_evictable pod = false ↔
     daemonset_owned pod ∨ safe_to_evict_false pod
     ∨ carries_nonempty_mirror_annotation pod ∨ ¬ pending_or_running pod)
  ∧ (pending_or_running pod → ¬ daemonset_owned pod →
     ¬ safe_to_evict_false pod → ¬ carries_nonempty_mirror_annotation pod →
     _is_evictable pod = true).
Proof.
  pose proof (is_managed_by_daemonset_spec pod) as Hd.
  pose proof (phase_in_pending_running_spec pod) as Hp.
  pose proof (truthy_spec (annotations_of pod !! "kubernetes.io/config.mirror")) as Hm.
  unfold _is_evictable, safe_to_evict_false, carries_nonempty_mirror_annotation.
  fold (annotations_of pod).
  destruct (truthy _) eqn:Et.
  { split; [|intros _ _ _ Hn; destruct Hn; by apply Hm].
    split; [|done]. intros _. right. right. left. by apply Hm. }
  assert (Hnm : ¬ ∃ v, annotations_of pod !! "kubernetes.io/config.mirror" = Some v
                       ∧ v ≠ "").
  { intros H. apply Hm in H. congruence. }
  case_bool_decide as Hs.
  { split; [|intros _ _ Hn; by destruct Hn]. split; [|done]. intros _. by right; left. }
  destruct (_is_managed_by_daemonset pod) eqn:Ed.
  { split; [|intros _ Hn; destruct Hn; by apply Hd].
    split; [|done]. intros _. left. by apply Hd. }
  assert (Hnd : ¬ daemonset_owned pod).
  { intros H. apply Hd in H. congruence. }
  destruct (phase_in_pending_running (status_phase pod)) eqn:Ep; simpl.
  - split; [|done]. split; [done|].
    intros [?|[?|[?|Hn]]]; try done. destruct Hn. by apply Hp.
  - split; [|intros H; apply Hp in H; congruence].
    split; [|done]. intros _. right. right. right. intros H.
    apply Hp in H. congruence.
Qed.

(** C3, as it is stated, fails: a running pod whose config-mirror
    annotation is the empty string carries the annotation and is
    evictable. *)
Lemma is_evictable_empty_mirror :
  carries_mirror_annotation empty_mirror_pod
  ∧ ¬ (_is_evictable empty_mirror_pod = false ↔
         daemonset_owned empty_mirror_pod ∨ safe_to_evict_false empty_mirror_pod
         ∨ carries_mirror_annotation empty_mirror_pod
         ∨ ¬ pending_or_running empty_mirror_pod).
Proof.
  assert (Hc : carries_mirror_annotation empty_mirror_pod).
  { unfold carries_mirror_annotation. vm_compute. eauto. }
  split; [done|]. intros [_ H].
  assert (He : _is_evictable empty_mirror_pod = true) by reflexivity.
  rewrite H in He; [discriminate|]. by right; right; left.
Qed.

Lemma is_evictable_spec_witness :
  _is_evictable sample_started = true.
Proof.
  apply (is_evictable_spec sample_started).
  - right. reflexivity.
  - intros (o & Hin & _). simpl in Hin. by apply elem_of_nil in Hin.
  - unfold safe_to_evict_false. vm_compute. discriminate.
  - intros (v & Hv & _). vm_compute in Hv. discriminate.
Defined.

(** *** The order of the candidates *)

Lemma float_ltb_asym (x y : Float) : float_ltb x y = true → float_ltb y x = false.
Proof.
  destruct x, y; simpl; try done. rewrite Z.ltb_lt, Z.ltb_ge. lia.
Qed.

Lemma float_ltb_negtrans (x y z : Float) :
  float_ltb y x = false → float_ltb z y = false → float_ltb z x = false.
Proof.
  destruct x, y, z; simpl; try done. rewrite !Z.ltb_ge. lia.
Qed.

Lemma key_ltb_asym (a b : Z * Float) : key_ltb a b = true → key_ltb b a = false.
Proof.
  unfold key_ltb. destruct a as [p x], b as [q y]; simpl.
  destruct (Z.eqb_spec p q) as [->|Hne].
  - rewrite Z.eqb_refl. apply float_ltb_asym.
  - destruct (Z.eqb_spec q p) as [->|_]; [done|].
    rewrite Z.ltb_lt, Z.ltb_ge. lia.
Qed.

Lemma key_ltb_negtrans (a b c : Z * Float) :
  key_ltb b a = false → key_ltb c b = false → key_ltb c a = false.
Proof.
  unfold key_ltb. destruct a as [p x], b as [q y], c as [r z]; simpl.
  destruct (Z.eqb_spec q p) as [E1|E1], (Z.eqb_spec r q) as [E2|E2],
           (Z.eqb_spec r p) as [E3|E3];
    rewrite ?Z.ltb_ge; try (intros; lia).
  apply float_ltb_negtrans.
Qed.



Lemma candidates_of_eq (pods : list Pod) :
  candidates_of pods =
    ret (sort_with key_ltb _pod_sort_key false
           (filter (λ pod, _is_evictable pod = true) pods)).
Proof. unfold candidates_of. by apply SortFacts.sorted_total. Qed.

Lemma candidates_of_sorted (pods order : list Pod) :
  candidates_of pods = inr order →
  StronglySorted (not_after key_ltb _pod_sort_key) order.
Proof.
  rewrite candidates_of_eq. intros [= <-].
  apply SortFacts.sort_with_ascending;
    [apply key_ltb_asym | apply key_ltb_negtrans].
Qed.






End Selector.

(** ** [plan_evictions] *)

Module Planner.

Lemma plan_node_eq pbn targets plan node t :
  targets !! node = Some t →
  plan_node pbn targets plan node
  = (printed_for pbn targets node, ret (plan ++ planned_for pbn targets node)).
Proof.
  intros Ht. unfold plan_node, planned_for, printed_for, getitem.
  rewrite Ht. simpl. fold (pod_count pbn node).
  destruct (Z.leb_spec (pod_count pbn node - t) 0) as [Hle|Hgt].
  - rewrite bool_decide_eq_false_2 by lia.
    replace (Z.to_nat _) with 0 by (unfold len; lia).
    rewrite take_0. simpl. by rewrite app_nil_r.
  - rewrite Selector.candidates_of_eq. fold (candidates pbn node).
    generalize (candidates pbn node). intros cands. simpl.
    destruct (Z.ltb_spec (len cands) (pod_count pbn node - t)) as [Hshort|Henough].
    + rewrite bool_decide_eq_true_2 by lia.
      unfold range. rewrite PyFacts.mapM_index_range by (unfold len; lia).
      simpl. by rewrite Z.min_r by lia.
    + rewrite bool_decide_eq_false_2 by lia.
      unfold range. rewrite PyFacts.mapM_index_range by (unfold len in *; lia).
      simpl. by rewrite Z.min_l by lia.
Qed.

(** With a target for every node the loop ends without an exception; it
    has appended the rounds of the nodes in order. *)
Lemma plan_loop_eq pbn targets plan nodes :
  (∀ n, n ∈ nodes → is_Some (targets !! n)) →
  plan_loop pbn targets plan nodes
  = (concat (printed_for pbn targets <$> nodes),
     ret (plan ++ concat (planned_for pbn targets <$> nodes))).
Proof.
  revert plan. induction nodes as [|n nodes IH]; intros plan Hdef; csimpl.
  - by rewrite app_nil_r.
  - destruct (Hdef n ltac:(left)) as [t Ht].
    rewrite (plan_node_eq _ _ _ _ _ Ht). simpl.
    rewrite IH by (intros m Hm; apply Hdef; by right).
    by rewrite app_assoc.
Qed.

Lemma entries_for_planned pbn targets n m :
  entries_for n (planned_for pbn targets m)
  = if decide (m = n) then planned_for pbn targets m else [].
Proof.
  unfold entries_for, planned_for. destruct (targets !! m) as [t|].
  2:{ by destruct (decide (m = n)). }
  simpl. generalize (take (Z.to_nat (Z.min (pod_count pbn m - t)
                                    (len (candidates pbn m)))) (candidates pbn m)).
  intros l. destruct (decide (m = n)) as [->|Hne].
  - induction l as [|x l IH]; [done|].
    rewrite fmap_cons, filter_cons_True by done. by rewrite IH.
  - induction l as [|x l IH]; [done|].
    rewrite fmap_cons, filter_cons_False by done. by rewrite IH.
Qed.

Lemma entries_for_rounds pbn targets n nodes :
  NoDup nodes →
  entries_for n (concat (planned_for pbn targets <$> nodes))
  = if decide (n ∈ nodes) then planned_for pbn targets n else [].
Proof.
  induction 1 as [|m nodes Hnotin Hnd IH].
  - by rewrite decide_False by apply not_elem_of_nil.
  - rewrite fmap_cons. change (concat (?x :: ?l)) with (x ++ concat l).
    unfold entries_for in *. rewrite filter_app.
    fold (entries_for n (planned_for pbn targets m)).
    rewrite entries_for_planned, IH.
    destruct (decide (m = n)) as [->|Hne].
    + rewrite (decide_True (P := n ∈ n :: nodes)) by left.
      rewrite (decide_False (P := n ∈ nodes)) by done.
      simpl. by rewrite app_nil_r.
    + simpl. destruct (decide (n ∈ nodes)) as [Hin|Hin].
      * by rewrite (decide_True (P := n ∈ m :: nodes)) by (by right).
      * rewrite (decide_False (P := n ∈ m :: nodes)); [done|].
        intros [->|?]%elem_of_cons; done.
Qed.



(** The sample of the specification: from counts 5, 3, 1 and targets
    3, 3, 3 the plan evicts two pods of A, the newest first, and nothing
    from B or C. *)
Example plan_evictions_sample :
  plan_evictions ["A"; "B"; "C"] sample_pods_by_node sample_targets
  = ([], inr [("A", sample_pod "a2" None (Some 50%Z));
              ("A", sample_pod "a4" None (Some 30%Z))]).
Proof. reflexivity. Qed.

End Planner.

(** ** [execute_plan] *)

Module Executor.

Section loop.
Context {Sink : Type}.
Variable evict : Sink → string → string → V1Eviction → Sink * (string + unit).

Lemma execute_plan_loop plan api dry_run grace max :
  execute_plan evict plan api dry_run grace max
  = execute_loop evict plan dry_run grace max 0 api.
Proof. by destruct plan. Qed.

(** The counter only moves by the calls that returned. *)
Lemma execute_loop_returned plan dry_run grace max p api :
  returned (execute_loop evict plan dry_run grace max p api)
  = (p + successes (events (execute_loop evict plan dry_run grace max p api)))%Z.
Proof.
  revert p api. induction plan as [|[node pod] rest IH]; intros p api; simpl.
  - lia.
  - destruct (cap_reached max p); simpl; [lia|].
    destruct dry_run; [apply IH|].
    destruct (evict _ _ _ _) as [api' [exc|[]]]; simpl; rewrite IH; lia.
Qed.

Lemma successes_nonneg evs : (0 ≤ successes evs)%Z.
Proof.
  induction evs as [|e evs IH]; simpl; [lia|].
  destruct e as [| | |? ? ? []]; lia.
Qed.





End loop.







(** The endpoint rejects the second of five evictions: the error names
    that pod, the three entries after it are attempted, and four evictions
    are counted. *)
Example execute_plan_one_failure :
  let r := execute_plan flaky_sink sample_plan 0 false None None in
  returned r = 4%Z
  ∧ events r =
      [EvictionCall "default" "a1" None true;
       EvictionCall "default" "a2" None false;
       EvictionFailedError "default" "a2" "(429) Too Many Requests";
       EvictionCall "default" "a3" None true;
       EvictionCall "default" "a4" None true;
       EvictionCall "default" "a5" None true].
Proof. split; reflexivity. Qed.

(** A cap below 0 acts as a cap of 0: the loop stops at the first entry. *)
Example execute_plan_negative_cap :
  execute_plan accepting_sink sample_plan () false None (Some (-1)%Z)
  = {| returned := 0; api := (); events := [CapReachedWarning] |}.
Proof. reflexivity. Qed.



End Executor.

(** * Further properties of the code *)

(** ** The order of node names *)

Module StringOrder.

Lemma compare_le_trans (a b c : string) :
  String.compare a b ≠ Gt → String.compare b c ≠ Gt → String.compare a c ≠ Gt.
Proof.
  revert b c. induction a as [|x a IH]; intros [|y b] [|z c]; simpl; try done.
  unfold Ascii.compare.
  destruct (N.compare_spec (Ascii.N_of_ascii x) (Ascii.N_of_ascii y)) as [Exy|Lxy|Gxy],
           (N.compare_spec (Ascii.N_of_ascii y) (Ascii.N_of_ascii z)) as [Eyz|Lyz|Gyz],
           (N.compare_spec (Ascii.N_of_ascii x) (Ascii.N_of_ascii z)) as [Exz|Lxz|Gxz];
    try done; try lia.
  apply IH.
Qed.

Lemma ltb_false_iff (a b : string) :
  String.ltb a b = false ↔ String.compare b a ≠ Gt.
Proof.
  unfold String.ltb. rewrite (String.compare_antisym b a).
  destruct (String.compare a b); simpl; split; congruence.
Qed.

Lemma ltb_asym (a b : string) : String.ltb a b = true → String.ltb b a = false.
Proof.
  unfold String.ltb. rewrite (String.compare_antisym b a).
  by destruct (String.compare a b).
Qed.

Lemma ltb_negtrans (a b c : string) :
  String.ltb b a = false → String.ltb c b = false → String.ltb c a = false.
Proof. rewrite !ltb_false_iff. apply compare_le_trans. Qed.


(** Two names neither of which is below the other are the same name. *)
Lemma ltb_antisym (a b : string) :
  String.ltb a b = false → String.ltb b a = false → a = b.
Proof.
  unfold String.ltb. rewrite (String.compare_antisym b a).
  destruct (String.compare a b) eqn:H; simpl; try done.
  intros _ _. by apply String.compare_eq_iff.
Qed.

(** The ascending sort of names: sorted, and strictly so on distinct names. *)
Lemma sort_names_sorted (l : list string) :
  StronglySorted (λ a b, String.ltb b a = false) (sort_with String.ltb id false l).
Proof. apply (SortFacts.sort_with_ascending String.ltb id ltb_asym ltb_negtrans). Qed.

Lemma sorted_NoDup_strict (l : list string) :
  StronglySorted (λ a b, String.ltb b a = false) l → NoDup l →
  StronglySorted (λ a b, String.ltb a b = true) l.
Proof.
  induction 1 as [|x l Hs IH Hx]; intros Hnd; [constructor|].
  apply NoDup_cons in Hnd as [Hnotin Hnd]. constructor; [by apply IH|].
  rewrite Forall_forall in Hx. apply Forall_forall. intros y Hy.
  destruct (String.ltb x y) eqn:Hlt; [done|].
  rewrite (ltb_antisym x y Hlt (Hx y Hy)) in Hnotin. done.
Qed.

End StringOrder.

(** ** [list_schedulable_nodes] *)

Module Inventory.

Lemma schedulable_names_NoDup (nodes : list Node) :
  NoDup (node_metadata_name <$> nodes) →
  NoDup (node_metadata_name <$> filter (λ node, schedulable node = true) nodes).
Proof.
  induction nodes as [|node nodes IH]; [done|].
  rewrite fmap_cons, NoDup_cons. intros [Hnotin Hnd].
  rewrite filter_cons. destruct (decide (schedulable node = true)); [|by apply IH].
  rewrite fmap_cons, NoDup_cons. split; [|by apply IH].
  intros (other & Heq & [_ Hin]%list_elem_of_filter)%list_elem_of_fmap.
  apply Hnotin, list_elem_of_fmap. eauto.
Qed.

Lemma list_schedulable_nodes_inr (nodes : list Node) (names : list string) :
  list_schedulable_nodes nodes = inr names →
  names ≠ []
  ∧ names ≡ₚ node_metadata_name
               <$> filter (λ node, schedulable node = true) nodes
  ∧ StronglySorted (λ a b, String.ltb b a = false) names.
Proof.
  unfold list_schedulable_nodes.
  destruct (node_metadata_name <$> filter _ nodes) as [|name rest] eqn:Hf; [done|].
  intros Hret.
  assert (names = sort_with String.ltb id false (name :: rest)) as Hn by congruence.
  assert (Hp : names ≡ₚ name :: rest)
    by (rewrite Hn; apply SortFacts.sort_with_perm).
  split_and!.
  - intros ->. by apply Permutation_nil_cons in Hp.
  - done.
  - rewrite Hn. apply StringOrder.sort_names_sorted.
Qed.

(** X1. [list_schedulable_nodes] exits exactly when no listed node is
    schedulable; otherwise it returns a non-empty list, the names of the
    schedulable nodes rearranged into ascending order. *)
Theorem list_schedulable_nodes_spec (nodes : list Node) :
  match list_schedulable_nodes nodes with
  | inl exit =>
      exit = SystemExit "No schedulable nodes match the provided filters."
      ∧ ∀ node, node ∈ nodes → schedulable node = false
  | inr names =>
      names ≠ []
      ∧ names ≡ₚ node_metadata_name
                   <$> filter (λ node, schedulable node = true) nodes
      ∧ StronglySorted (λ a b, String.ltb b a = false) names
  end.
Proof.
  unfold list_schedulable_nodes.
  destruct (node_metadata_name <$> filter _ nodes) as [|name names] eqn:Hf.
  - split; [done|]. intros node Hin.
    destruct (schedulable node) eqn:Hs; [|done].
    apply fmap_nil_inv in Hf.
    by destruct (filter_nil_not_elem_of _ _ node Hf Hs).
  - split_and!.
    + intros Hnil.
      pose proof (SortFacts.sort_with_perm String.ltb id false (name :: names)) as Hp.
      rewrite Hnil in Hp. by apply Permutation_nil_cons in Hp.
    + apply SortFacts.sort_with_perm.
    + apply StringOrder.sort_names_sorted.
Qed.

Lemma list_schedulable_nodes_spec_witness :
  match list_schedulable_nodes sample_nodes with
  | inl exit =>
      exit = SystemExit "No schedulable nodes match the provided filters."
      ∧ ∀ node, node ∈ sample_nodes → schedulable node = false
  | inr names =>
      names ≠ []
      ∧ names ≡ₚ node_metadata_name
                   <$> filter (λ node, schedulable node = true) sample_nodes
      ∧ StronglySorted (λ a b, String.ltb b a = false) names
  end.
Proof. apply (list_schedulable_nodes_spec sample_nodes). Defined.

(** X2. When the listed nodes have distinct names, the names returned are
    distinct and strictly ascending, and they are exactly the names of the
    schedulable nodes. *)
Theorem list_schedulable_nodes_distinct (nodes : list Node) (names : list string) :
  NoDup (node_metadata_name <$> nodes) →
  list_schedulable_nodes nodes = inr names →
  NoDup names
  ∧ StronglySorted (λ a b, String.ltb a b = true) names
  ∧ ∀ n, n ∈ names ↔
         ∃ node, node ∈ nodes ∧ schedulable node = true
                 ∧ node_metadata_name node = n.
Proof.
  intros Hnd Hret.
  destruct (list_schedulable_nodes_inr nodes names Hret) as (_ & Hperm & Hsorted).
  assert (Hnd' : NoDup names).
  { rewrite Hperm. by apply schedulable_names_NoDup. }
  split_and!; [done|by apply StringOrder.sorted_NoDup_strict|].
  intros n. rewrite Hperm, list_elem_of_fmap. split.
  - intros (node & -> & [Hs Hin]%list_elem_of_filter). eauto.
  - intros (node & Hin & Hs & <-). exists node. split; [done|].
    by apply list_elem_of_filter.
Qed.

Lemma list_schedulable_nodes_distinct_witness :
  NoDup ["A"; "C"]
  ∧ StronglySorted (λ a b, String.ltb a b = true) ["A"; "C"]
  ∧ ∀ n, n ∈ ["A"; "C"] ↔
         ∃ node, node ∈ sample_nodes ∧ schedulable node = true
                 ∧ node_metadata_name node = n.
Proof.
  apply (list_schedulable_nodes_distinct sample_nodes ["A"; "C"]).
  - apply (bool_decide_unpack _). vm_compute. reflexivity.
  - reflexivity.
Defined.

End Inventory.

(** ** [list_target_pods] and [group_pods_by_node] *)

Module Grouping.

Lemma pods_on_snoc node pods pod :
  pods_on node (pods ++ [pod])
  = pods_on node pods
    ++ (if decide (spec_node_name pod = Some node) then [pod_object pod] else []).
Proof.
  unfold pods_on. rewrite filter_app, fmap_app. f_equal.
  rewrite filter_cons, filter_nil. by destruct (decide _).
Qed.

Lemma group_pods_by_node_snoc pods pod :
  group_pods_by_node (pods ++ [pod])
  = match spec_node_name pod with
    | Some node =>
        <[node := get (group_pods_by_node pods) node [] ++ [pod_object pod]]>
          (group_pods_by_node pods)
    | None => group_pods_by_node pods
    end.
Proof. unfold group_pods_by_node. by rewrite foldl_snoc. Qed.

(** A group is the pods of the listing on that node, in listing order, and
    there is no group without a pod. *)
Lemma group_lookup (pods : list PodItem) (node : string) :
  group_pods_by_node pods !! node
  = match pods_on node pods with
    | [] => None
    | group => Some group
    end.
Proof.
  induction pods as [|pod pods IH] using rev_ind; [done|].
  rewrite group_pods_by_node_snoc, pods_on_snoc.
  destruct (spec_node_name pod) as [m|] eqn:Hm.
  - destruct (decide (m = node)) as [->|Hne].
    + rewrite lookup_insert_eq, decide_True by done.
      unfold get. rewrite IH.
      by destruct (pods_on node pods).
    + rewrite lookup_insert_ne by done.
      rewrite decide_False by congruence. by rewrite app_nil_r.
  - rewrite decide_False by done. by rewrite app_nil_r.
Qed.

Lemma group_get (pods : list PodItem) (node : string) :
  get (group_pods_by_node pods) node [] = pods_on node pods.
Proof. unfold get. rewrite group_lookup. by destruct (pods_on node pods). Qed.

Lemma list_target_pods_elem (pods : list PodItem) (pod : PodItem) :
  pod ∈ list_target_pods pods ↔
  pod ∈ pods ∧ ∃ node, spec_node_name pod = Some node ∧ node ≠ "".
Proof.
  unfold list_target_pods. rewrite list_elem_of_filter, Selector.truthy_spec.
  tauto.
Qed.

Lemma pods_on_target (pods : list PodItem) (node : string) :
  node ≠ "" → pods_on node (list_target_pods pods) = pods_on node pods.
Proof.
  intros Hne. unfold pods_on, list_target_pods. f_equal.
  rewrite list_filter_filter. apply list_filter_iff. intros pod.
  rewrite Selector.truthy_spec. split; [tauto|]. intros Hn. split; [done|]. eauto.
Qed.

Lemma pods_on_none (pods : list PodItem) (node : string) :
  (∀ pod, pod ∈ pods → spec_node_name pod ≠ Some node) → pods_on node pods = [].
Proof.
  intros Hno. unfold pods_on.
  destruct (filter _ pods) as [|pod rest] eqn:Hf; [done|].
  assert (pod ∈ filter (λ pod, spec_node_name pod = Some node) pods) as Hin
    by (rewrite Hf; left).
  apply list_elem_of_filter in Hin as [Hn Hin]. by destruct (Hno pod Hin).
Qed.

Lemma pods_on_some (pods : list PodItem) (node : string) :
  pods_on node pods ≠ [] ↔ ∃ pod, pod ∈ pods ∧ spec_node_name pod = Some node.
Proof.
  split.
  - unfold pods_on. destruct (filter _ pods) as [|pod rest] eqn:Hf; [done|].
    intros _. exists pod.
    assert (pod ∈ filter (λ pod, spec_node_name pod = Some node) pods) as Hin
      by (rewrite Hf; left).
    apply list_elem_of_filter in Hin. tauto.
  - intros (pod & Hin & Hn) Hnil.
    assert (pod_object pod ∈ pods_on node pods) as Hp.
    { apply list_elem_of_fmap. exists pod. split; [done|].
      by apply list_elem_of_filter. }
    rewrite Hnil in Hp. by apply elem_of_nil in Hp.
Qed.

(** X3. Grouping the pods [list_target_pods] keeps: the group of a node is
    the list of the pods of the listing placed on it, in listing order; a
    node has a group exactly when its name is not empty and some listed pod
    is placed on it, no group is empty, and the count the planner reads for
    a node is the number of kept pods placed on it. *)
Theorem group_pods_by_node_spec (pods : list PodItem) (node : string) :
  let grouped := group_pods_by_node (list_target_pods pods) in
  (is_Some (grouped !! node) ↔
     node ≠ "" ∧ ∃ pod, pod ∈ pods ∧ spec_node_name pod = Some node)
  ∧ (∀ group, grouped !! node = Some group →
       group ≠ [] ∧ group = pods_on node pods)
  ∧ pod_count grouped node = len (pods_on node (list_target_pods pods)).
Proof.
  intros grouped. unfold grouped, pod_count. rewrite group_get, group_lookup.
  split_and!.
  - destruct (decide (node = "")) as [->|Hne].
    + rewrite pods_on_none.
      * split; [by intros [? ?]|]. by intros [? _].
      * intros pod (_ & n & Hn & Hne)%list_target_pods_elem. congruence.
    + rewrite pods_on_target by done.
      destruct (pods_on node pods) as [|p l] eqn:Hp.
      * split; [by intros [? ?]|]. intros [_ Hex].
        apply pods_on_some in Hex. by rewrite Hp in Hex.
      * split; [|by eauto]. intros _. split; [done|].
        apply pods_on_some. by rewrite Hp.
  - intros group Hg.
    destruct (decide (node = "")) as [->|Hne].
    + rewrite pods_on_none in Hg; [done|].
      intros pod (_ & n & Hn & Hne)%list_target_pods_elem. congruence.
    + rewrite pods_on_target in Hg by done.
      destruct (pods_on node pods); [done|]. by injection Hg as <-.
  - done.
Qed.

Lemma group_pods_by_node_spec_witness :
  let grouped := group_pods_by_node (list_target_pods sample_listing) in
  (is_Some (grouped !! "A") ↔
     "A" ≠ "" ∧ ∃ pod, pod ∈ sample_listing ∧ spec_node_name pod = Some "A")
  ∧ (∀ group, grouped !! "A" = Some group →
       group ≠ [] ∧ group = pods_on "A" sample_listing)
  ∧ pod_count grouped "A" = len (pods_on "A" (list_target_pods sample_listing)).
Proof. apply (group_pods_by_node_spec sample_listing "A"). Defined.


Lemma sum_len_values_insert (m : gmap string (list Pod)) (k : string) (v : list Pod) :
  sum (len <$> values (<[k := v]> m))
  = (sum (len <$> values m) - len (get m k []) + len v)%Z.
Proof.
  unfold values, get. destruct (m !! k) as [old|] eqn:Hk; simpl.
  - rewrite <- (insert_delete_eq m).
    rewrite (PyFacts.sum_perm _ (len <$> ((k, v) :: map_to_list (delete k m)).*2)).
    2:{ by rewrite map_to_list_insert by apply lookup_delete_eq. }
    rewrite (PyFacts.sum_perm (len <$> (map_to_list m).*2)
               (len <$> ((k, old) :: map_to_list (delete k m)).*2)).
    2:{ by rewrite (map_to_list_delete m k old Hk). }
    csimpl. rewrite !PyFacts.sum_cons. lia.
  - rewrite (PyFacts.sum_perm _ (len <$> ((k, v) :: map_to_list m).*2)).
    2:{ by rewrite map_to_list_insert. }
    csimpl. rewrite PyFacts.sum_cons. change (len (@nil Pod)) with 0%Z. lia.
Qed.

Lemma group_sizes (pods : list PodItem) :
  sum (len <$> values (group_pods_by_node pods))
  = len (filter (λ pod, is_Some (spec_node_name pod)) pods).
Proof.
  induction pods as [|pod pods IH] using rev_ind.
  - unfold group_pods_by_node, values. simpl. by rewrite map_to_list_empty.
  - rewrite group_pods_by_node_snoc, filter_app, filter_cons, filter_nil.
    destruct (spec_node_name pod) as [node|] eqn:Hn.
    + rewrite sum_len_values_insert, IH, decide_True by eauto.
      unfold len. rewrite !length_app. simpl. lia.
    + rewrite IH, decide_False by (by intros [? ?]). by rewrite app_nil_r.
Qed.

(** X4. Grouping loses no pod and counts none twice: the sizes of the groups
    add up to the number of pods [list_target_pods] kept. *)
Theorem group_pods_by_node_conserves (pods : list PodItem) :
  sum (len <$> values (group_pods_by_node (list_target_pods pods)))
  = len (list_target_pods pods).
Proof.
  rewrite group_sizes. f_equal. unfold list_target_pods.
  rewrite list_filter_filter. apply list_filter_iff. intros pod.
  rewrite Selector.truthy_spec. split; [tauto|].
  intros (n & Hn & Hne). split; eauto.
Qed.

End Grouping.

(** ** [warn_on_unlisted_nodes] *)

Module Unlisted.

Lemma elem_of_keys (m : gmap string (list Pod)) (n : string) :
  n ∈ (map_to_list m).*1 ↔ is_Some (m !! n).
Proof.
  rewrite list_elem_of_fmap. split.
  - intros ([k v] & -> & Hin). apply elem_of_map_to_list in Hin. eauto.
  - intros [v Hv]. exists (n, v). split; [done|]. by apply elem_of_map_to_list.
Qed.

Lemma elem_of_unlisted_nodes pbn nodes (n : string) :
  n ∈ unlisted_nodes pbn nodes ↔ is_Some (pbn !! n) ∧ n ∉ nodes.
Proof.
  unfold unlisted_nodes. rewrite SortFacts.sort_with_perm.
  rewrite list_elem_of_filter, elem_of_keys. tauto.
Qed.

Lemma unlisted_nodes_NoDup pbn nodes : NoDup (unlisted_nodes pbn nodes).
Proof.
  unfold unlisted_nodes. rewrite SortFacts.sort_with_perm.
  apply NoDup_filter, NoDup_fst_map_to_list.
Qed.

Lemma unlisted_nodes_sorted pbn nodes :
  StronglySorted (λ a b, String.ltb a b = true) (unlisted_nodes pbn nodes).
Proof.
  apply StringOrder.sorted_NoDup_strict; [|apply unlisted_nodes_NoDup].
  apply StringOrder.sort_names_sorted.
Qed.

(** X5. [warn_on_unlisted_nodes] prints nothing when every node that holds
    pods is in the pool; otherwise it prints one warning, whose text joins
    with ", " the names of exactly the nodes that hold pods and are outside
    the pool, each once, in strictly ascending order. *)
Theorem warn_on_unlisted_nodes_spec
    (pods_by_node : gmap string (list Pod)) (nodes : list string) :
  match warn_on_unlisted_nodes pods_by_node nodes with
  | [] => ∀ n, is_Some (pods_by_node !! n) → n ∈ nodes
  | [text] =>
      ∃ unknown,
        text = "Found pods scheduled on nodes outside the selected pool: "
               +:+ String.concat ", " unknown
               +:+ ". They will not be adjusted."
        ∧ unknown ≠ []
        ∧ (∀ n, n ∈ unknown ↔ is_Some (pods_by_node !! n) ∧ n ∉ nodes)
        ∧ StronglySorted (λ a b, String.ltb a b = true) unknown
  | _ => False
  end.
Proof.
  unfold warn_on_unlisted_nodes.
  pose proof (elem_of_unlisted_nodes pods_by_node nodes) as Hin.
  pose proof (unlisted_nodes_sorted pods_by_node nodes) as Hs.
  destruct (unlisted_nodes pods_by_node nodes) as [|first rest].
  - intros n Hn. destruct (decide (n ∈ nodes)) as [|Hnot]; [done|].
    assert (n ∈ []) as He by (by apply Hin). by apply elem_of_nil in He.
  - exists (first :: rest). by split_and!.
Qed.

Lemma warn_on_unlisted_nodes_spec_witness :
  match warn_on_unlisted_nodes sample_pods_by_node ["A"] with
  | [] => ∀ n, is_Some (sample_pods_by_node !! n) → n ∈ ["A"]
  | [text] =>
      ∃ unknown,
        text = "Found pods scheduled on nodes outside the selected pool: "
               +:+ String.concat ", " unknown
               +:+ ". They will not be adjusted."
        ∧ unknown ≠ []
        ∧ (∀ n, n ∈ unknown ↔ is_Some (sample_pods_by_node !! n) ∧ n ∉ ["A"])
        ∧ StronglySorted (λ a b, String.ltb a b = true) unknown
  | _ => False
  end.
Proof. apply (warn_on_unlisted_nodes_spec sample_pods_by_node ["A"]). Defined.

(** X6. On the grouping of the listed pods the warning is printed exactly
    when some pod that [list_target_pods] keeps is placed on a node outside
    the pool. *)
Theorem warn_on_unlisted_nodes_grouped (pods : list PodItem) (nodes : list string) :
  warn_on_unlisted_nodes (group_pods_by_node (list_target_pods pods)) nodes ≠ [] ↔
  ∃ pod node, pod ∈ list_target_pods pods
              ∧ spec_node_name pod = Some node ∧ node ∉ nodes.
Proof.
  pose proof (elem_of_unlisted_nodes
                (group_pods_by_node (list_target_pods pods)) nodes) as Hin.
  unfold warn_on_unlisted_nodes.
  assert (Hsome : ∀ n, is_Some (group_pods_by_node (list_target_pods pods) !! n) ↔
                       ∃ pod, pod ∈ list_target_pods pods
                              ∧ spec_node_name pod = Some n).
  { intros n. rewrite Grouping.group_lookup, <- Grouping.pods_on_some.
    destruct (pods_on n (list_target_pods pods)) as [|p l].
    - split; [by intros [? ?]|done].
    - split; [done|by eauto]. }
  destruct (unlisted_nodes _ nodes) as [|first rest].
  - split; [done|]. intros (pod & node & Hp & Hn & Hnot).
    assert (node ∈ []) as He by (apply Hin; split; [apply Hsome; eauto|done]).
    by apply elem_of_nil in He.
  - split; [|done]. intros _.
    destruct (proj1 (Hin first) ltac:(left)) as [Hf Hnot].
    apply Hsome in Hf as (pod & Hp & Hn). eauto.
Qed.

Lemma warn_on_unlisted_nodes_grouped_witness :
  warn_on_unlisted_nodes (group_pods_by_node (list_target_pods sample_listing))
    ["A"; "C"] ≠ [] ↔
  ∃ pod node, pod ∈ list_target_pods sample_listing
              ∧ spec_node_name pod = Some node ∧ node ∉ ["A"; "C"].
Proof. apply (warn_on_unlisted_nodes_grouped sample_listing ["A"; "C"]). Defined.

End Unlisted.

(** ** More on [compute_targets] *)

Module TargetsMore.
Import TargetFacts.

(** The remainder loop raises nothing as long as it stays within the
    ranking, and it keeps the keys of the targets. *)
Lemma remainder_loop_total (nodes rk : list string) (targets : gmap string Z)
    (a j : nat) :
  (∀ n, n ∈ rk → n ∈ nodes) → a + j ≤ length rk →
  (∀ k, is_Some (targets !! k) ↔ k ∈ nodes) →
  ∃ targets',
    foldM (λ targets idx,
             let* node := index rk idx in
             let* t := getitem targets node in
             ret (<[node := (t + 1)%Z]> targets))
          targets (seq a j) = ret targets'
    ∧ ∀ k, is_Some (targets' !! k) ↔ k ∈ nodes.
Proof.
  intros Hsub. revert a targets. induction j as [|j IH]; intros a targets Hlen Hdom.
  - exists targets. by split.
  - simpl. destruct (lookup_lt_is_Some_2 rk a ltac:(lia)) as [n Hn].
    unfold index at 1. rewrite Hn. simpl.
    assert (Hin : n ∈ nodes) by (apply Hsub; by eapply list_elem_of_lookup_2).
    destruct (proj2 (Hdom n) Hin) as [t Ht].
    unfold getitem at 1. rewrite Ht. simpl.
    apply IH; [lia|]. intros k. rewrite lookup_insert_is_Some, Hdom. split.
    + by intros [<-|[_ ?]].
    + intros Hk. destruct (decide (n = k)); [by left | by right].
Qed.

(** X7. The only exception [compute_targets] raises is the division by zero
    on an empty sequence: on every non-empty sequence of node names, repeated
    names included, it returns targets, and these are defined on exactly the
    supplied names. *)
Theorem compute_targets_total
    (nodes : list string) (pods_by_node : gmap string (list Pod)) :
  nodes ≠ [] →
  ∃ targets,
    compute_targets nodes pods_by_node = inr targets
    ∧ ∀ n, is_Some (targets !! n) ↔ n ∈ nodes.
Proof.
  intros Hne. unfold compute_targets.
  set (total := sum (values (dict_comp (λ node, len (get pods_by_node node [])) nodes))).
  assert (Hlen : (0 < len nodes)%Z).
  { unfold len. destruct nodes; [done|]. simpl. lia. }
  unfold divmod. destruct (Z.eqb_spec (len nodes) 0) as [Hz|_]; [lia|]. simpl.
  rewrite (SortFacts.sorted_total _ _ _ (pod_count pods_by_node)).
  2:{ intros n Hn. unfold getitem. rewrite PyFacts.dict_comp_lookup.
      by rewrite decide_True. }
  cbn [bind ret]. fold (ranked nodes pods_by_node). unfold range.
  apply remainder_loop_total.
  - intros n. by rewrite elem_of_ranked.
  - rewrite ranked_length.
    pose proof (Z.mod_pos_bound total (len nodes) Hlen). unfold len in *. lia.
  - intros k. rewrite PyFacts.dict_comp_lookup.
    destruct (decide (k ∈ nodes)); [by eauto|]. split; [by intros [? ?]|done].
Qed.

Lemma compute_targets_total_witness :
  ∃ targets,
    compute_targets ["A"; "A"; "B"] sample_pods_by_node = inr targets
    ∧ ∀ n, is_Some (targets !! n) ↔ n ∈ ["A"; "A"; "B"].
Proof. apply compute_targets_total. discriminate. Defined.

(** A favoured node counts at least as many pods as a node that is not. *)
Lemma favoured_highest nodes pbn (a b : string) :
  a ∈ favoured nodes pbn → b ∈ nodes → b ∉ favoured nodes pbn →
  (pod_count pbn b ≤ pod_count pbn a)%Z.
Proof.
  unfold favoured. set (j := Z.to_nat _). intros Ha Hb Hnot.
  pose proof (Targets.ranked_descending nodes pbn) as Hs.
  rewrite <- (take_drop j (ranked nodes pbn)) in Hs.
  eapply (StronglySorted_app_1_elem_of _ _ _ a b Hs); [done|].
  apply (elem_of_ranked nodes pbn) in Hb.
  rewrite <- (take_drop j (ranked nodes pbn)) in Hb.
  apply elem_of_app in Hb as [Hb|Hb]; [by destruct Hnot | done].
Qed.

Lemma compute_targets_lookup nodes pbn targets (n : string) :
  nodes ≠ [] → NoDup nodes → compute_targets nodes pbn = inr targets →
  n ∈ nodes → targets !! n = Some (target_of nodes pbn n).
Proof.
  intros Hne Hnd Hret Hn. rewrite compute_targets_eq in Hret by done.
  injection Hret as <-. by rewrite PyFacts.dict_comp_lookup, decide_True.
Qed.

(** X8. The targets follow the counts: of two nodes of a node set, the one
    that holds more pods never gets the lower target. *)
Theorem compute_targets_monotone
    (nodes : list string) (pods_by_node : gmap string (list Pod))
    (targets : gmap string Z) (a b : string) (ta tb : Z) :
  NoDup nodes → compute_targets nodes pods_by_node = inr targets →
  targets !! a = Some ta → targets !! b = Some tb →
  (pod_count pods_by_node b < pod_count pods_by_node a)%Z →
  (tb ≤ ta)%Z.
Proof.
  intros Hnd Hret Ha Hb Hlt.
  assert (Hne : nodes ≠ []).
  { intros ->. discriminate Hret. }
  assert (Hin : ∀ n t, targets !! n = Some t → n ∈ nodes).
  { intros n t Hn. rewrite compute_targets_eq in Hret by done.
    injection Hret as <-. rewrite PyFacts.dict_comp_lookup in Hn.
    by destruct (decide (n ∈ nodes)). }
  pose proof (Hin _ _ Ha) as Ha_in.
  rewrite (compute_targets_lookup _ _ _ a Hne Hnd Hret Ha_in) in Ha.
  rewrite (compute_targets_lookup _ _ _ b Hne Hnd Hret (Hin _ _ Hb)) in Hb.
  injection Ha as <-. injection Hb as <-. unfold target_of.
  case_bool_decide as Hfb; case_bool_decide as Hfa; try lia.
  pose proof (favoured_highest nodes pods_by_node b a Hfb Ha_in Hfa). lia.
Qed.

Lemma compute_targets_monotone_witness :
  compute_targets ["A"; "B"; "D"] sample_pods_by_node
  = inr (<["A" := 3%Z]> (<["B" := 3%Z]> (<["D" := 2%Z]> ∅)))
  ∧ (pod_count sample_pods_by_node "D" < pod_count sample_pods_by_node "A")%Z
  ∧ (2 ≤ 3)%Z.
Proof.
  assert (H1 : compute_targets ["A"; "B"; "D"] sample_pods_by_node
               = inr (<["A" := 3%Z]> (<["B" := 3%Z]> (<["D" := 2%Z]> ∅))))
    by reflexivity.
  assert (H2 : (pod_count sample_pods_by_node "D"
                < pod_count sample_pods_by_node "A")%Z) by reflexivity.
  split_and!; [done..|].
  apply (compute_targets_monotone ["A"; "B"; "D"] sample_pods_by_node
           (<["A" := 3%Z]> (<["B" := 3%Z]> (<["D" := 2%Z]> ∅))) "A" "D" 3 2).
  - apply (bool_decide_unpack _). vm_compute. reflexivity.
  - exact H1.
  - reflexivity.
  - reflexivity.
  - exact H2.
Defined.

(** *** A balanced pool is left alone *)

Lemma sum_fmap_le (f g : string → Z) (l : list string) :
  (∀ n, n ∈ l → (f n ≤ g n)%Z) → (sum (f <$> l) ≤ sum (g <$> l))%Z.
Proof.
  induction l as [|x l IH]; intros Hle; csimpl; [done|].
  rewrite !PyFacts.sum_cons.
  pose proof (Hle x ltac:(left)).
  pose proof (IH (λ n Hn, Hle n ltac:(by right))). lia.
Qed.

Lemma sum_fmap_lt (f g : string → Z) (l : list string) (a : string) :
  (∀ n, n ∈ l → (f n ≤ g n)%Z) → a ∈ l → (f a < g a)%Z →
  (sum (f <$> l) < sum (g <$> l))%Z.
Proof.
  induction l as [|x l IH]; intros Hle Ha Hlt; [by apply elem_of_nil in Ha|].
  csimpl. rewrite !PyFacts.sum_cons.
  pose proof (Hle x ltac:(left)).
  pose proof (sum_fmap_le f g l (λ n Hn, Hle n ltac:(by right))).
  apply elem_of_cons in Ha as [->|Ha]; [lia|].
  pose proof (IH (λ n Hn, Hle n ltac:(by right)) Ha Hlt). lia.
Qed.

Lemma sum_fmap_eq_pointwise (f g : string → Z) (l : list string) :
  (∀ n, n ∈ l → (f n ≤ g n)%Z) → sum (f <$> l) = sum (g <$> l) →
  ∀ n, n ∈ l → f n = g n.
Proof.
  intros Hle Heq n Hn. destruct (Z.eq_dec (f n) (g n)) as [|Hne]; [done|].
  pose proof (Hle n Hn).
  pose proof (sum_fmap_lt f g l n Hle Hn ltac:(lia)). lia.
Qed.

Lemma sum_const (c : Z) (l : list string) :
  sum ((λ _, c) <$> l) = (c * len l)%Z.
Proof.
  unfold len. induction l as [|x l IH]; csimpl.
  - rewrite PyFacts.sum_foldr. simpl. lia.
  - rewrite PyFacts.sum_cons, IH. lia.
Qed.

(** The targets of a node set add up to the total. *)
Lemma sum_target_of nodes pbn :
  nodes ≠ [] → NoDup nodes →
  sum (target_of nodes pbn <$> nodes) = total_count nodes pbn.
Proof.
  intros Hne Hnd. unfold target_of.
  assert (Hlen : (0 < len nodes)%Z).
  { unfold len. destruct nodes; [done|]. simpl. lia. }
  rewrite (sum_plus_const _ (λ n, if bool_decide (n ∈ favoured nodes pbn)
                                  then 1%Z else 0%Z)).
  change (λ n, if bool_decide (n ∈ favoured nodes pbn) then 1%Z else 0%Z)
    with (bonus (Z.to_nat (total_count nodes pbn mod len nodes)) (ranked nodes pbn)).
  rewrite <- (PyFacts.sum_perm _ _ (fmap_Permutation _ _ _ (ranked_perm nodes pbn))).
  pose proof (Z.mod_pos_bound (total_count nodes pbn) (len nodes) Hlen).
  rewrite sum_bonus.
  - rewrite Z2Nat.id by lia.
    pose proof (Z.div_mod (total_count nodes pbn) (len nodes)). lia.
  - by apply ranked_NoDup.
  - rewrite ranked_length. unfold len in *. lia.
Qed.

(** When the counts of a node set differ by at most 1, every node already
    holds its target. *)
Lemma balanced_targets nodes pbn :
  nodes ≠ [] → NoDup nodes →
  (∀ a b, a ∈ nodes → b ∈ nodes → (pod_count pbn a - pod_count pbn b ≤ 1)%Z) →
  ∀ n, n ∈ nodes → target_of nodes pbn n = pod_count pbn n.
Proof.
  intros Hne Hnd Hspread.
  assert (Hlen : (0 < len nodes)%Z).
  { unfold len. destruct nodes; [done|]. simpl. lia. }
  set (p := (total_count nodes pbn / len nodes)%Z).
  pose proof (Z.mod_pos_bound (total_count nodes pbn) (len nodes) Hlen) as He.
  pose proof (Z.div_mod (total_count nodes pbn) (len nodes) ltac:(lia)) as Hdm.
  fold p in Hdm.
  assert (Hsum : sum (pod_count pbn <$> nodes) = total_count nodes pbn) by done.
  (* every count is p or p + 1 *)
  assert (Hlo : ∀ n, n ∈ nodes → (p ≤ pod_count pbn n)%Z).
  { intros a Ha. destruct (Z.le_gt_cases p (pod_count pbn a)) as [|Hlt]; [done|].
    assert (Hle : ∀ n, n ∈ nodes → (pod_count pbn n ≤ p)%Z).
    { intros n Hn. pose proof (Hspread n a Hn Ha). lia. }
    pose proof (sum_fmap_lt (pod_count pbn) (λ _, p) nodes a Hle Ha Hlt) as H.
    rewrite sum_const in H. lia. }
  assert (Hhi : ∀ n, n ∈ nodes → (pod_count pbn n ≤ p + 1)%Z).
  { intros a Ha. destruct (Z.le_gt_cases (pod_count pbn a) (p + 1)) as [|Hgt]; [done|].
    assert (Hle : ∀ n, n ∈ nodes → (p + 1 ≤ pod_count pbn n)%Z).
    { intros n Hn. pose proof (Hspread a n Ha Hn). lia. }
    assert (Hlt : (p + 1 < pod_count pbn a)%Z) by lia.
    pose proof (sum_fmap_lt (λ _, (p + 1)%Z) (pod_count pbn) nodes a Hle Ha Hlt) as H.
    rewrite sum_const in H. lia. }
  (* a favoured node holds p + 1 pods *)
  assert (Hfav : ∀ n, n ∈ nodes → n ∈ favoured nodes pbn →
                      pod_count pbn n = (p + 1)%Z).
  { intros a Ha Hfa. pose proof (Hlo a Ha). pose proof (Hhi a Ha).
    destruct (Z.eq_dec (pod_count pbn a) (p + 1)%Z) as [|Hne']; [done|].
    assert (Hle : ∀ n, n ∈ nodes → (pod_count pbn n ≤ target_of nodes pbn n)%Z).
    { intros n Hn. unfold target_of. fold p. case_bool_decide as Hfn.
      - by apply Hhi.
      - pose proof (favoured_highest nodes pbn a n Hfa Hn Hfn). lia. }
    assert (Hlt : (pod_count pbn a < target_of nodes pbn a)%Z).
    { unfold target_of. fold p. rewrite bool_decide_eq_true_2 by done. lia. }
    pose proof (sum_fmap_lt (pod_count pbn) (target_of nodes pbn) nodes a
                  Hle Ha Hlt) as Hsums.
    rewrite sum_target_of in Hsums by done. lia. }
  apply sum_fmap_eq_pointwise.
  - intros n Hn. unfold target_of. fold p. case_bool_decide as Hfn.
    + rewrite (Hfav n Hn Hfn). lia.
    + pose proof (Hlo n Hn). lia.
  - by rewrite sum_target_of.
Qed.

End TargetsMore.

(** ** More on [plan_evictions] *)

Module PlannerMore.

Lemma concat_fmap_nil {A B} (f : A → list B) (l : list A) :
  (∀ x, x ∈ l → f x = []) → concat (f <$> l) = [].
Proof.
  induction l as [|x l IH]; intros Hnil; csimpl; [done|].
  rewrite (Hnil x) by left. simpl. apply IH. intros y Hy. apply Hnil. by right.
Qed.

Lemma elem_of_concat_fmap {A B} (f : A → list B) (l : list A) (y : B) :
  y ∈ concat (f <$> l) ↔ ∃ x, x ∈ l ∧ y ∈ f x.
Proof.
  rewrite list_elem_of_In, in_concat. split.
  - intros (ys & Hys & Hy). apply list_elem_of_In, list_elem_of_fmap in Hys
      as (x & -> & Hx). exists x. split; [done|]. by apply list_elem_of_In.
  - intros (x & Hx & Hy). exists (f x). split.
    + apply list_elem_of_In, list_elem_of_fmap. eauto.
    + by apply list_elem_of_In.
Qed.

(** The loop stops at the first node without a target. *)
Lemma plan_loop_missing pbn targets plan (pre post : list string) (n : string) :
  (∀ m, m ∈ pre → is_Some (targets !! m)) → targets !! n = None →
  plan_loop pbn targets plan (pre ++ n :: post)
  = (concat (printed_for pbn targets <$> pre), inl (KeyError n)).
Proof.
  intros Hpre Hn. revert plan. induction pre as [|m pre IH]; intros plan; csimpl.
  - unfold plan_node, getitem. by rewrite Hn.
  - destruct (Hpre m ltac:(left)) as [t Ht].
    rewrite (Planner.plan_node_eq _ _ _ _ _ Ht). simpl.
    rewrite IH by (intros k Hk; apply Hpre; by right). done.
Qed.

(** A loop that ends with a plan has found a target for every node. *)
Lemma plan_loop_defined pbn targets plan nodes out plan' :
  plan_loop pbn targets plan nodes = (out, inr plan') →
  ∀ n, n ∈ nodes → is_Some (targets !! n).
Proof.
  revert plan out plan'.
  induction nodes as [|m nodes IH]; intros plan out plan' Hret n Hn.
  - by apply elem_of_nil in Hn.
  - simpl in Hret. destruct (targets !! m) as [t|] eqn:Ht.
    + rewrite (Planner.plan_node_eq _ _ _ _ _ Ht) in Hret. simpl in Hret.
      destruct (plan_loop pbn targets _ nodes) as [out' r] eqn:Hrest.
      injection Hret as <- ->.
      apply elem_of_cons in Hn as [->|Hn]; [by eauto|].
      by eapply IH.
    + unfold plan_node, getitem in Hret. by rewrite Ht in Hret.
Qed.

Lemma plan_evictions_inr nodes pbn targets out plan :
  plan_evictions nodes pbn targets = (out, inr plan) →
  (∀ n, n ∈ nodes → is_Some (targets !! n))
  ∧ out = concat (printed_for pbn targets <$> nodes)
  ∧ plan = concat (planned_for pbn targets <$> nodes).
Proof.
  intros Hret. pose proof (plan_loop_defined _ _ _ _ _ _ Hret) as Hdef.
  unfold plan_evictions in Hret. rewrite Planner.plan_loop_eq in Hret by done.
  by injection Hret as <- <-.
Qed.

(** X9. Without a target for some node [plan_evictions] raises [KeyError]
    for the first such node: the warnings of the nodes before it have been
    printed, no node after it is looked at and no plan is returned. *)
Theorem plan_evictions_missing_target
    (pods_by_node : gmap string (list Pod)) (targets : gmap string Z)
    (before after : list string) (node : string) :
  (∀ m, m ∈ before → is_Some (targets !! m)) → targets !! node = None →
  plan_evictions (before ++ node :: after) pods_by_node targets
  = (concat (printed_for pods_by_node targets <$> before), inl (KeyError node)).
Proof. intros. by apply plan_loop_missing. Qed.

Lemma plan_evictions_missing_target_witness :
  plan_evictions (["A"] ++ "D" :: ["B"]) sample_pods_by_node
    (<["A" := (-1)%Z]> sample_targets)
  = (concat (printed_for sample_pods_by_node (<["A" := (-1)%Z]> sample_targets)
               <$> ["A"]),
     inl (KeyError "D")).
Proof.
  apply plan_evictions_missing_target.
  - intros m Hm. apply list_elem_of_singleton in Hm as ->. vm_compute. eauto.
  - reflexivity.
Defined.

(** What a round of the loop plans: evictable pods of its node, and only
    when the node is above its target. *)
Lemma planned_for_elem pbn targets (m n : string) (pod : Pod) :
  (n, pod) ∈ planned_for pbn targets m →
  n = m ∧ pod ∈ get pbn m [] ∧ _is_evictable pod = true
  ∧ ∃ t, targets !! m = Some t ∧ (t < pod_count pbn m)%Z.
Proof.
  unfold planned_for. destruct (targets !! m) as [t|]; [|by intros ?%elem_of_nil].
  intros (p & [= -> ->] & Hp)%list_elem_of_fmap.
  assert (Hpos : (0 < Z.min (pod_count pbn m - t) (len (candidates pbn m)))%Z).
  { destruct (Z.to_nat _) eqn:Hz in Hp; [|lia].
    rewrite take_0 in Hp. by apply elem_of_nil in Hp. }
  apply subseteq_take in Hp. unfold candidates in Hp.
  rewrite SortFacts.sort_with_perm in Hp.
  apply list_elem_of_filter in Hp as [Hev Hp].
  split_and!; [done..|]. exists t. split; [done|]. lia.
Qed.

(** X10. Every entry of a plan names a node of the input that holds more
    pods than its target, and a pod of that node that is evictable: no node
    outside the input, no node at or below its target and no protected pod
    is ever planned. *)
Theorem plan_evictions_sound
    (nodes : list string) (pods_by_node : gmap string (list Pod))
    (targets : gmap string Z) (out : list Event) (plan : Plan)
    (node : string) (pod : Pod) :
  plan_evictions nodes pods_by_node targets = (out, inr plan) →
  (node, pod) ∈ plan →
  node ∈ nodes
  ∧ pod ∈ get pods_by_node node []
  ∧ _is_evictable pod = true
  ∧ ∃ t, targets !! node = Some t ∧ (t < pod_count pods_by_node node)%Z.
Proof.
  intros (Hdef & _ & ->)%plan_evictions_inr Hin.
  apply elem_of_concat_fmap in Hin as (m & Hm & Hin).
  apply planned_for_elem in Hin as (-> & Hin). by split.
Qed.

Lemma plan_evictions_sound_witness :
  "A" ∈ ["A"; "B"; "C"]
  ∧ sample_pod "a2" None (Some 50%Z) ∈ get sample_pods_by_node "A" []
  ∧ _is_evictable (sample_pod "a2" None (Some 50%Z)) = true
  ∧ ∃ t, sample_targets !! "A" = Some t ∧ (t < pod_count sample_pods_by_node "A")%Z.
Proof.
  apply (plan_evictions_sound ["A"; "B"; "C"] sample_pods_by_node sample_targets
           [] [("A", sample_pod "a2" None (Some 50%Z));
               ("A", sample_pod "a4" None (Some 30%Z))]).
  - reflexivity.
  - left.
Defined.

Lemma printed_for_elem pbn targets (m n : string) (o a sh : Z) :
  ShortageWarning n o a sh ∈ printed_for pbn targets m →
  n = m ∧ ∃ t, targets !! m = Some t
               ∧ (len (candidates pbn m) < pod_count pbn m - t)%Z.
Proof.
  unfold printed_for. destruct (targets !! m) as [t|]; [|by intros ?%elem_of_nil].
  simpl. case_bool_decide as Hs; [|by intros ?%elem_of_nil].
  intros [= -> _ _ _]%list_elem_of_singleton. split; [done|]. exists t.
  split; [done|lia].
Qed.

(** X11. For distinct nodes, a node at or below its target loses nothing; a
    node above its target is never planned below it; and when it has at
    least as many candidates as its overload, the plan takes it exactly to
    its target and no shortage is reported for it. *)
Theorem plan_evictions_reaches_target
    (nodes : list string) (pods_by_node : gmap string (list Pod))
    (targets : gmap string Z) (out : list Event) (plan : Plan)
    (node : string) (t : Z) :
  NoDup nodes →
  plan_evictions nodes pods_by_node targets = (out, inr plan) →
  node ∈ nodes → targets !! node = Some t →
  let count := pod_count pods_by_node node in
  let planned := len (entries_for node plan) in
  ((count ≤ t)%Z → entries_for node plan = [])
  ∧ ((t < count)%Z → (t ≤ count - planned)%Z)
  ∧ ((t < count)%Z →
     (count - t ≤ len (candidates pods_by_node node))%Z →
     (count - planned)%Z = t
     ∧ ∀ o a sh, ShortageWarning node o a sh ∉ out).
Proof.
  intros Hnd (Hdef & -> & ->)%plan_evictions_inr Hn Ht count planned.
  unfold planned. rewrite Planner.entries_for_rounds, decide_True by done.
  unfold planned_for. rewrite Ht. simpl. fold count.
  set (cands := candidates pods_by_node node).
  assert (Hnn : (0 ≤ len cands)%Z) by (unfold len; lia).
  assert (Hlen : len ((λ pod, (node, pod))
                        <$> take (Z.to_nat (Z.min (count - t) (len cands))) cands)
                 = Z.max 0 (Z.min (count - t) (len cands))).
  { unfold len. rewrite length_fmap, length_take. lia. }
  rewrite Hlen. split_and!.
  - intros Hle. replace (Z.to_nat _) with 0 by lia. by rewrite take_0.
  - intros Hlt. lia.
  - intros Hlt Henough. split; [lia|].
    intros o a sh (m & Hm & Hin)%elem_of_concat_fmap.
    apply printed_for_elem in Hin as (<- & t' & Ht' & Hshort).
    rewrite Ht in Ht'. injection Ht' as <-. fold count cands in Hshort. lia.
Qed.

Lemma plan_evictions_reaches_target_witness :
  let count := pod_count sample_pods_by_node "A" in
  let planned :=
    len (entries_for "A" [("A", sample_pod "a2" None (Some 50%Z));
                          ("A", sample_pod "a4" None (Some 30%Z))]) in
  ((count ≤ 3)%Z →
   entries_for "A" [("A", sample_pod "a2" None (Some 50%Z));
                    ("A", sample_pod "a4" None (Some 30%Z))] = [])
  ∧ ((3 < count)%Z → (3 ≤ count - planned)%Z)
  ∧ ((3 < count)%Z →
     (count - 3 ≤ len (candidates sample_pods_by_node "A"))%Z →
     (count - planned)%Z = 3%Z
     ∧ ∀ o a sh, ShortageWarning "A" o a sh ∉ []).
Proof.
  apply (plan_evictions_reaches_target ["A"; "B"; "C"] sample_pods_by_node
           sample_targets [] _ "A" 3).
  - apply (bool_decide_unpack _). vm_compute. reflexivity.
  - reflexivity.
  - left.
  - reflexivity.
Defined.

(** X12. The pods planned for a node are the first of its candidates in
    eviction order: no candidate that is spared has a lower priority than a
    planned one, and none sorts before a planned one. *)
Theorem plan_evictions_takes_first
    (nodes : list string) (pods_by_node : gmap string (list Pod))
    (targets : gmap string Z) (out : list Event) (plan : Plan) (node : string) :
  NoDup nodes →
  plan_evictions nodes pods_by_node targets = (out, inr plan) →
  node ∈ nodes →
  ∃ chosen spared,
    candidates_of (get pods_by_node node []) = inr (chosen ++ spared)
    ∧ entries_for node plan = (λ pod, (node, pod)) <$> chosen
    ∧ ∀ p q, p ∈ chosen → q ∈ spared →
        key_ltb (_pod_sort_key q) (_pod_sort_key p) = false
        ∧ (pod_priority p ≤ pod_priority q)%Z.
Proof.
  intros Hnd (Hdef & -> & ->)%plan_evictions_inr Hn.
  destruct (Hdef node Hn) as [t Ht].
  set (k := Z.to_nat (Z.min (pod_count pods_by_node node - t)
                        (len (candidates pods_by_node node)))).
  exists (take k (candidates pods_by_node node)),
         (drop k (candidates pods_by_node node)).
  split_and!.
  - rewrite take_drop. apply Selector.candidates_of_eq.
  - rewrite Planner.entries_for_rounds, decide_True by done.
    unfold planned_for. by rewrite Ht.
  - intros p q Hp Hq.
    pose proof (Selector.candidates_of_sorted _ _
                  (Selector.candidates_of_eq (get pods_by_node node []))) as Hs.
    fold (candidates pods_by_node node) in Hs.
    rewrite <- (take_drop k (candidates pods_by_node node)) in Hs.
    pose proof (StronglySorted_app_1_elem_of _ _ _ p q Hs Hp Hq) as Hna.
    unfold not_after in Hna. split; [done|].
    unfold key_ltb, _pod_sort_key in Hna. simpl in Hna.
    fold (pod_priority p) (pod_priority q) in Hna.
    destruct (Z.eqb_spec (pod_priority q) (pod_priority p)); [lia|].
    apply Z.ltb_ge in Hna. lia.
Qed.

Lemma plan_evictions_takes_first_witness :
  ∃ chosen spared,
    candidates_of (get sample_pods_by_node "A" []) = inr (chosen ++ spared)
    ∧ entries_for "A" [("A", sample_pod "a2" None (Some 50%Z));
                       ("A", sample_pod "a4" None (Some 30%Z))]
      = (λ pod, ("A", pod)) <$> chosen
    ∧ ∀ p q, p ∈ chosen → q ∈ spared →
        key_ltb (_pod_sort_key q) (_pod_sort_key p) = false
        ∧ (pod_priority p ≤ pod_priority q)%Z.
Proof.
  apply (plan_evictions_takes_first ["A"; "B"; "C"] sample_pods_by_node
           sample_targets [] _ "A").
  - apply (bool_decide_unpack _). vm_compute. reflexivity.
  - reflexivity.
  - left.
Defined.

(** X13. The entries of a plan stand node by node in the order of the
    input: the plan is the concatenation, over the nodes in input order, of
    the entries of each node. *)
Theorem plan_evictions_node_order
    (nodes : list string) (pods_by_node : gmap string (list Pod))
    (targets : gmap string Z) (out : list Event) (plan : Plan) :
  NoDup nodes →
  plan_evictions nodes pods_by_node targets = (out, inr plan) →
  plan = concat ((λ node, entries_for node plan) <$> nodes).
Proof.
  intros Hnd (Hdef & -> & ->)%plan_evictions_inr. f_equal.
  apply list_fmap_ext. intros i n Hi.
  assert (Hn : n ∈ nodes) by (by eapply list_elem_of_lookup_2).
  rewrite Planner.entries_for_rounds by done. by rewrite decide_True.
Qed.

Lemma plan_evictions_node_order_witness :
  [("A", sample_pod "a2" None (Some 50%Z)); ("A", sample_pod "a4" None (Some 30%Z))]
  = concat ((λ node,
               entries_for node [("A", sample_pod "a2" None (Some 50%Z));
                                 ("A", sample_pod "a4" None (Some 30%Z))])
              <$> ["A"; "B"; "C"]).
Proof.
  apply (plan_evictions_node_order ["A"; "B"; "C"] sample_pods_by_node
           sample_targets []).
  - apply (bool_decide_unpack _). vm_compute. reflexivity.
  - reflexivity.
Defined.

End PlannerMore.

(** ** The planner as [main] composes it *)

Module Pipeline.
Import TargetFacts.

Lemma planned_nothing pbn targets (n : string) :
  targets !! n = Some (pod_count pbn n) →
  planned_for pbn targets n = [] ∧ printed_for pbn targets n = [].
Proof.
  intros Ht. unfold planned_for, printed_for. rewrite Ht. simpl. split.
  - replace (Z.to_nat _) with 0 by (unfold len; lia). by rewrite take_0.
  - by rewrite bool_decide_eq_false_2 by lia.
Qed.

(** X14. A pool that is already balanced is left alone: when the counts of
    the nodes of a node set differ by at most 1, the targets computed are the
    current counts, and the plan built from them is empty and prints no
    warning. *)
Theorem balanced_pool_untouched
    (nodes : list string) (pods_by_node : gmap string (list Pod)) :
  nodes ≠ [] → NoDup nodes →
  (∀ a b, a ∈ nodes → b ∈ nodes →
     (pod_count pods_by_node a - pod_count pods_by_node b ≤ 1)%Z) →
  ∃ targets,
    compute_targets nodes pods_by_node = inr targets
    ∧ (∀ n, n ∈ nodes → targets !! n = Some (pod_count pods_by_node n))
    ∧ plan_evictions nodes pods_by_node targets = ([], inr []).
Proof.
  intros Hne Hnd Hspread.
  exists (dict_comp (target_of nodes pods_by_node) nodes).
  split; [by apply compute_targets_eq|].
  assert (Hfix : ∀ n, n ∈ nodes →
            dict_comp (target_of nodes pods_by_node) nodes !! n
            = Some (pod_count pods_by_node n)).
  { intros n Hn. rewrite PyFacts.dict_comp_lookup, decide_True by done.
    f_equal. by apply TargetsMore.balanced_targets. }
  split; [exact Hfix|].
  unfold plan_evictions. rewrite Planner.plan_loop_eq.
  - rewrite !PlannerMore.concat_fmap_nil; [done| |].
    + intros n Hn. by apply planned_nothing, Hfix.
    + intros n Hn. by apply planned_nothing, Hfix.
  - intros n Hn. rewrite (Hfix n Hn). eauto.
Qed.

Lemma balanced_pool_untouched_witness :
  ∃ targets,
    compute_targets ["B"; "D"] (<["D" := [sample_started; sample_unstarted]]>
                                  sample_pods_by_node) = inr targets
    ∧ (∀ n, n ∈ ["B"; "D"] →
         targets !! n = Some (pod_count (<["D" := [sample_started; sample_unstarted]]>
                                          sample_pods_by_node) n))
    ∧ plan_evictions ["B"; "D"] (<["D" := [sample_started; sample_unstarted]]>
                                   sample_pods_by_node) targets = ([], inr []).
Proof.
  apply balanced_pool_untouched.
  - discriminate.
  - apply (bool_decide_unpack _). vm_compute. reflexivity.
  - intros a b Ha Hb.
    repeat (apply elem_of_cons in Ha as [->|Ha]);
      try (by apply elem_of_nil in Ha);
      repeat (apply elem_of_cons in Hb as [->|Hb]);
      try (by apply elem_of_nil in Hb); vm_compute; discriminate.
Defined.

(** X15. From the listings to the plan nothing is raised: for a cluster
    whose nodes have distinct names and of which one at least is schedulable,
    and for any listing of pods, [compute_targets] and [plan_evictions] both
    return; every entry of the plan names a schedulable node of the cluster
    and an evictable pod that the listing places on that node. *)
Theorem planner_pipeline
    (node_items : list Node) (pod_items : list PodItem) (names : list string) :
  NoDup (node_metadata_name <$> node_items) →
  list_schedulable_nodes node_items = inr names →
  let pods_by_node := group_pods_by_node (list_target_pods pod_items) in
  ∃ targets out plan,
    compute_targets names pods_by_node = inr targets
    ∧ plan_evictions names pods_by_node targets = (out, inr plan)
    ∧ ∀ node pod, (node, pod) ∈ plan →
        (∃ item, item ∈ node_items ∧ schedulable item = true
                 ∧ node_metadata_name item = node)
        ∧ (∃ item, item ∈ pod_items ∧ spec_node_name item = Some node
                   ∧ pod_object item = pod)
        ∧ _is_evictable pod = true.
Proof.
  intros Hnd Hret pods_by_node.
  destruct (Inventory.list_schedulable_nodes_inr _ _ Hret) as (Hne & Hperm & _).
  assert (Hnd' : NoDup names).
  { rewrite Hperm. by apply Inventory.schedulable_names_NoDup. }
  exists (dict_comp (target_of names pods_by_node) names).
  assert (Hdef : ∀ n, n ∈ names →
            is_Some (dict_comp (target_of names pods_by_node) names !! n)).
  { intros n Hn. rewrite PyFacts.dict_comp_lookup, decide_True by done. eauto. }
  unfold plan_evictions. rewrite Planner.plan_loop_eq by done.
  do 2 eexists. split_and!; [by apply compute_targets_eq|done|].
  intros node pod (m & Hm & Hin)%PlannerMore.elem_of_concat_fmap.
  apply PlannerMore.planned_for_elem in Hin as (-> & Hpod & Hev & _).
  split_and!; [|  |done].
  - rewrite Hperm in Hm.
    apply list_elem_of_fmap in Hm as (item & -> & [Hs Hin]%list_elem_of_filter).
    eauto.
  - unfold pods_by_node in Hpod. rewrite Grouping.group_get in Hpod.
    apply list_elem_of_fmap in Hpod as (item & -> & [Hn Hin]%list_elem_of_filter).
    apply Grouping.list_target_pods_elem in Hin as [Hin _]. eauto.
Qed.

Lemma planner_pipeline_witness :
  let pods_by_node := group_pods_by_node (list_target_pods sample_listing) in
  ∃ targets out plan,
    compute_targets ["A"; "C"] pods_by_node = inr targets
    ∧ plan_evictions ["A"; "C"] pods_by_node targets = (out, inr plan)
    ∧ ∀ node pod, (node, pod) ∈ plan →
        (∃ item, item ∈ sample_nodes ∧ schedulable item = true
                 ∧ node_metadata_name item = node)
        ∧ (∃ item, item ∈ sample_listing ∧ spec_node_name item = Some node
                   ∧ pod_object item = pod)
        ∧ _is_evictable pod = true.
Proof.
  apply (planner_pipeline sample_nodes sample_listing ["A"; "C"]).
  - apply (bool_decide_unpack _). vm_compute. reflexivity.
  - reflexivity.
Defined.

Lemma sum_on_node (nodes : list string) (o : option string) :
  NoDup nodes →
  sum ((λ n, if decide (o = Some n) then 1%Z else 0%Z) <$> nodes)
  = match o with
    | Some node => if bool_decide (node ∈ nodes) then 1%Z else 0%Z
    | None => 0%Z
    end.
Proof.
  induction 1 as [|x nodes Hnotin Hnd IH]; csimpl.
  - rewrite PyFacts.sum_foldr. simpl. by destruct o.
  - rewrite PyFacts.sum_cons, IH. destruct o as [node|].
    + destruct (decide (Some node = Some x)) as [[= ->]|Hne].
      * rewrite bool_decide_eq_false_2 by done.
        rewrite bool_decide_eq_true_2 by left. lia.
      * rewrite (bool_decide_ext (node ∈ x :: nodes) (node ∈ nodes)); [lia|].
        rewrite elem_of_cons. split; [|tauto]. intros [->|?]; [done|done].
    + by rewrite decide_False.
Qed.

(** The counts of the nodes of a pool add up to the pods placed on it. *)
Lemma count_on_pool (nodes : list string) (pods : list PodItem) :
  NoDup nodes →
  sum ((λ n, len (pods_on n pods)) <$> nodes)
  = len (filter (λ pod, on_pool nodes pod = true) pods).
Proof.
  intros Hnd. induction pods as [|pod pods IH].
  - change (sum ((λ _, 0%Z) <$> nodes) = 0%Z).
    rewrite TargetsMore.sum_const. lia.
  - transitivity (sum ((λ n, ((if decide (spec_node_name pod = Some n)
                               then 1 else 0) + len (pods_on n pods))%Z) <$> nodes)).
    { f_equal. apply list_fmap_ext. intros _ n _. unfold pods_on.
      rewrite filter_cons. destruct (decide (spec_node_name pod = Some n)).
      - rewrite fmap_cons. unfold len. simpl. lia.
      - lia. }
    assert (Hsplit : ∀ (f g : string → Z) l,
              sum ((λ n, (f n + g n)%Z) <$> l) = (sum (f <$> l) + sum (g <$> l))%Z).
    { intros f g l. induction l as [|x l IHl]; csimpl.
      - rewrite !PyFacts.sum_foldr. simpl. lia.
      - rewrite !PyFacts.sum_cons, IHl. lia. }
    rewrite Hsplit, IH, sum_on_node by done.
    rewrite filter_cons.
    assert (Hop : on_pool nodes pod
                  = match spec_node_name pod with
                    | Some node => bool_decide (node ∈ nodes)
                    | None => false
                    end) by done.
    destruct (spec_node_name pod) as [node|].
    + case_bool_decide.
      * rewrite decide_True by done. unfold len. simpl. lia.
      * rewrite decide_False by (rewrite Hop; done). lia.
    + rewrite decide_False by (rewrite Hop; done). lia.
Qed.

(** X16. The targets distribute exactly the pods of the pool: on the
    grouping of a listing and a set of node names, the targets add up to the
    number of pods that [list_target_pods] keeps and that are placed on a
    node of the set. *)
Theorem targets_sum_on_pool
    (nodes : list string) (pods : list PodItem) (targets : gmap string Z) :
  NoDup nodes →
  compute_targets nodes (group_pods_by_node (list_target_pods pods)) = inr targets →
  sum (values targets)
  = len (filter (λ pod, on_pool nodes pod = true) (list_target_pods pods)).
Proof.
  intros Hnd Hret.
  assert (Hne : nodes ≠ []) by (intros ->; discriminate Hret).
  rewrite compute_targets_eq in Hret by done. injection Hret as <-.
  rewrite (PyFacts.sum_perm _ _ (PyFacts.values_dict_comp _ _ Hnd)).
  change (λ n, (total_count nodes (group_pods_by_node (list_target_pods pods))
                / len nodes
                + (if bool_decide (n ∈ favoured nodes
                                         (group_pods_by_node (list_target_pods pods)))
                   then 1 else 0))%Z)
    with (target_of nodes (group_pods_by_node (list_target_pods pods))).
  rewrite TargetsMore.sum_target_of by done.
  rewrite <- count_on_pool by done. unfold total_count. f_equal.
  apply list_fmap_ext. intros _ n _. unfold pod_count.
  by rewrite Grouping.group_get.
Qed.

Lemma targets_sum_on_pool_witness :
  sum (values (<["A" := 3%Z]> (<["C" := 3%Z]> (∅ : gmap string Z))))
  = len (filter (λ pod, on_pool ["A"; "C"] pod = true)
           (list_target_pods sample_listing)).
Proof.
  apply targets_sum_on_pool.
  - apply (bool_decide_unpack _). vm_compute. reflexivity.
  - reflexivity.
Defined.

End Pipeline.

(** ** More on [execute_plan] *)

Module ExecutorMore.

Section loop.
Context {Sink : Type}.
Variable evict : Sink → string → string → V1Eviction → Sink * (string + unit).

(** In dry-run the loop changes nothing; at most it warns, at its first
    entry, that the cap is reached. *)
Lemma execute_loop_dry_run plan grace max p api :
  execute_loop evict plan true grace max p api
  = {| returned := p; api := api;
       events := match plan with
                 | [] => []
                 | _ => if cap_reached max p then [CapReachedWarning] else []
                 end |}.
Proof.
  induction plan as [|[node pod] rest IH]; simpl; [done|].
  destruct (cap_reached max p) eqn:Hcap; [done|].
  rewrite IH. by destruct rest.
Qed.

Lemma execute_loop_ge plan dry_run grace max p api :
  (p ≤ returned (execute_loop evict plan dry_run grace max p api))%Z.
Proof.
  rewrite Executor.execute_loop_returned.
  pose proof (Executor.successes_nonneg
                (events (execute_loop evict plan dry_run grace max p api))). lia.
Qed.


(** The cap-reached warning ends the run, and it is printed only when the
    counter has reached a cap. *)
Lemma execute_loop_warning plan dry_run grace max p api i :
  events (execute_loop evict plan dry_run grace max p api) !! i
    = Some CapReachedWarning →
  S i = length (events (execute_loop evict plan dry_run grace max p api))
  ∧ ∃ k, max = Some k
         ∧ (k ≤ returned (execute_loop evict plan dry_run grace max p api))%Z.
Proof.
  revert p api i. induction plan as [|[node pod] rest IH]; intros p api i; simpl.
  - done.
  - destruct (cap_reached max p) eqn:Hcap; simpl.
    + destruct i as [|i]; [|done]. intros _. split; [done|].
      destruct max as [k|]; [|done]. exists k. split; [done|].
      by apply Z.leb_le in Hcap.
    + destruct dry_run; [apply IH|].
      destruct (evict _ _ _ _) as [api' [exc|[]]]; simpl.
      * destruct i as [|[|i]]; simpl; [done..|].
        intros Hi. destruct (IH _ _ _ Hi) as [Hlen Hk]. split; [lia|done].
      * destruct i as [|i]; simpl; [done|].
        intros Hi. destruct (IH _ _ _ Hi) as [Hlen Hk]. split; [lia|done].
Qed.



(** A larger cap, or none, never gives fewer evictions. *)
Lemma execute_loop_cap_monotone plan dry_run grace max max' p api :
  (∀ k', max' = Some k' → ∃ k, max = Some k ∧ (k ≤ k')%Z) →
  (returned (execute_loop evict plan dry_run grace max p api)
   ≤ returned (execute_loop evict plan dry_run grace max' p api))%Z.
Proof.
  intros Hle. revert p api.
  induction plan as [|[node pod] rest IH]; intros p api; simpl; [done|].
  destruct (cap_reached max p) eqn:Hcap; simpl.
  - destruct (cap_reached max' p); simpl; [done|].
    destruct dry_run; [apply execute_loop_ge|].
    destruct (evict _ _ _ _) as [api' [exc|[]]]; simpl.
    + apply execute_loop_ge.
    + etrans; [|apply execute_loop_ge]. lia.
  - assert (Hcap' : cap_reached max' p = false).
    { destruct max' as [k'|]; [|done].
      destruct (Hle k' eq_refl) as (k & -> & Hk). simpl in *.
      apply Z.leb_gt in Hcap. apply Z.leb_gt. lia. }
    rewrite Hcap'. destruct dry_run; [apply IH|].
    destruct (evict _ _ _ _) as [api' [exc|[]]]; simpl; apply IH.
Qed.
End loop.

(** X17. In dry-run [execute_plan] calls the endpoint for no entry, leaves
    it as it was and returns 0, whatever the plan; it prints nothing, except
    the cap-reached warning, once, when the plan is not empty and the cap is
    0 or less. *)
Theorem execute_plan_dry_run {Sink : Type}
    (evict : Sink → string → string → V1Eviction → Sink * (string + unit))
    (plan : Plan) (eviction_api : Sink) (grace max : option Z) :
  let r := execute_plan evict plan eviction_api true grace max in
  returned r = 0%Z
  ∧ api r = eviction_api
  ∧ attempted (events r) = []
  ∧ (events r = [] ∨ events r = [CapReachedWarning])
  ∧ (events r = [CapReachedWarning] ↔
       plan ≠ [] ∧ ∃ k, max = Some k ∧ (k ≤ 0)%Z).
Proof.
  intros r. unfold r. rewrite Executor.execute_plan_loop, execute_loop_dry_run.
  simpl. destruct plan as [|entry rest].
  - split_and!; [done..|by left|]. split; [done|]. by intros [? _].
  - destruct max as [k|]; simpl.
    + destruct (Z.leb_spec k 0) as [Hk|Hk].
      * split_and!; [done..|by right|]. split; [|done]. intros _.
        split; [done|]. by exists k.
      * split_and!; [done..|by left|]. split; [done|].
        intros [_ (k' & [= <-] & Hk')]. lia.
    + split_and!; [done..|by left|]. split; [done|]. by intros [_ (k & ? & _)].
Qed.

Lemma execute_plan_dry_run_witness :
  let r := execute_plan flaky_sink sample_plan 0 true None (Some 0%Z) in
  returned r = 0%Z
  ∧ api r = 0
  ∧ attempted (events r) = []
  ∧ (events r = [] ∨ events r = [CapReachedWarning])
  ∧ (events r = [CapReachedWarning] ↔
       sample_plan ≠ [] ∧ ∃ k, Some 0%Z = Some k ∧ (k ≤ 0)%Z).
Proof. apply (execute_plan_dry_run flaky_sink sample_plan 0 None (Some 0%Z)). Defined.



(** X19. The cap-reached warning is the last thing a run does, so it is
    printed at most once, and it is printed only when a cap is set and the
    count returned has reached it. *)
Theorem execute_plan_warning_last {Sink : Type}
    (evict : Sink → string → string → V1Eviction → Sink * (string + unit))
    (plan : Plan) (eviction_api : Sink) (dry_run : bool) (grace max : option Z)
    (i : nat) :
  let r := execute_plan evict plan eviction_api dry_run grace max in
  events r !! i = Some CapReachedWarning →
  S i = length (events r) ∧ ∃ k, max = Some k ∧ (k ≤ returned r)%Z.
Proof.
  intros r. unfold r. rewrite Executor.execute_plan_loop.
  apply execute_loop_warning.
Qed.

Lemma execute_plan_warning_last_witness :
  let r := execute_plan flaky_sink sample_plan 0 false None (Some 2%Z) in
  S 4 = length (events r) ∧ ∃ k, Some 2%Z = Some k ∧ (k ≤ returned r)%Z.
Proof.
  apply (execute_plan_warning_last flaky_sink sample_plan 0 false None (Some 2%Z) 4).
  reflexivity.
Defined.



(** X21. Raising the cap never lowers the count: on the same plan and the
    same endpoint a run with a larger cap returns at least as much as a run
    with a smaller one, and a run without cap at least as much as any. *)
Theorem execute_plan_cap_monotone {Sink : Type}
    (evict : Sink → string → string → V1Eviction → Sink * (string + unit))
    (plan : Plan) (eviction_api : Sink) (dry_run : bool) (grace : option Z)
    (k k' : Z) :
  (k ≤ k')%Z →
  let run max := returned (execute_plan evict plan eviction_api dry_run grace max) in
  (run (Some k) ≤ run (Some k'))%Z ∧ (run (Some k') ≤ run None)%Z.
Proof.
  intros Hk run. unfold run. rewrite !Executor.execute_plan_loop. split.
  - apply execute_loop_cap_monotone. intros ? [= <-]. eauto.
  - apply execute_loop_cap_monotone. intros ? [=].
Qed.

Lemma execute_plan_cap_monotone_witness :
  let run max := returned (execute_plan flaky_sink sample_plan 0 false None max) in
  (run (Some 1%Z) ≤ run (Some 3%Z))%Z ∧ (run (Some 3%Z) ≤ run None)%Z.
Proof.
  apply (execute_plan_cap_monotone flaky_sink sample_plan 0 false None 1 3). lia.
Defined.

End ExecutorMore.

(** ** More on the order of the candidates and on the targets *)

Module OrderMore.

(** X22. The order of the candidates is stable: the evictable pods that
    have one and the same sort key come out in the order they have in the
    node's list of pods. *)
Theorem eviction_order_stable (pods : list Pod) (key : Z * Float) :
  ∃ order,
    candidates_of pods = inr order
    ∧ filter (λ pod, _pod_sort_key pod = key) order
      = filter (λ pod, _pod_sort_key pod = key)
          (filter (λ pod, _is_evictable pod = true) pods).
Proof.
  eexists. split; [apply Selector.candidates_of_eq|].
  apply SortFacts.sort_with_filter. intros a b -> Hb. rewrite Hb.
  destruct (key_ltb key key) eqn:Hlt; [|done].
  by rewrite (Selector.key_ltb_asym _ _ Hlt) in Hlt.
Qed.

(** X23. The targets depend on the mapping of pods only through the counts
    of the supplied nodes: two mappings that give every supplied node the
    same number of pods, whatever else they hold, give the same result. *)
Theorem compute_targets_counts_only
    (nodes : list string) (pods_by_node pods_by_node' : gmap string (list Pod)) :
  (∀ n, n ∈ nodes → pod_count pods_by_node n = pod_count pods_by_node' n) →
  compute_targets nodes pods_by_node = compute_targets nodes pods_by_node'.
Proof.
  intros Hsame. unfold compute_targets.
  assert (Hcounts : dict_comp (λ node, len (get pods_by_node node [])) nodes
                    = dict_comp (λ node, len (get pods_by_node' node [])) nodes).
  { rewrite !PyFacts.dict_comp_list_to_map. f_equal.
    apply list_fmap_ext. intros i n Hi. f_equal.
    apply (Hsame n). by eapply list_elem_of_lookup_2. }
  by rewrite Hcounts.
Qed.

Lemma compute_targets_counts_only_witness :
  compute_targets ["A"; "B"] sample_pods_by_node
  = compute_targets ["A"; "B"] (delete "C" sample_pods_by_node).
Proof.
  apply compute_targets_counts_only. intros n Hn.
  repeat (apply elem_of_cons in Hn as [->|Hn]; [reflexivity|]).
  by apply elem_of_nil in Hn.
Defined.

End OrderMore.

(** ** [_format_pod_age] *)

Module Age.



End Age.
